(** * shecc: global symbol tables, hashmap and CFG edges (src/globals.c)

    A shallow embedding of the routines of [globals.c] that maintain the
    compiler's global state, followed by the properties stated about them.

    Conventions of the embedding.
    - A C [int] is an integer of [Z] kept in the signed 32-bit range; every
      arithmetic operation that can leave the range is followed by
      [Int.wrap].  [>>] on an [int] is the arithmetic shift, [Z.shiftr].
    - A [char *] is a [string]; the C string it denotes ends at the first
      NUL character or at the end of the Rocq string, whichever is first.
    - A pointer is an [option]: [None] is [NULL], [Some l] the address of
      an object: an index of an arena ([TYPES], [MACROS], [BLOCKS]) or a
      location of a heap of [malloc]ed objects.
    - An arena is the list of its entries in use, [TYPES[0 .. types_idx)].
      A routine that takes the next entry of an arena, or copies a string
      into a member of fixed size, leaves defined behaviour when the arena
      or the member has no room; the capacities are the constants [MAX_*]
      of [defs.h], which the embedding takes as parameters ([Limits]).
    - The result of [malloc] is an argument of the routine that calls it.
    - A routine that may stop the process or leave defined behaviour
      returns an [outcome]. *)

From Stdlib Require Import ZArith Lia String Ascii Bool.
From stdpp Require Import base option list gmap.

Local Open Scope Z_scope.

(** * Part I: the embedding *)

(** ** Machine integers *)

Module Int.

Definition INT_MIN : Z := - 2 ^ 31.
Definition INT_MAX : Z := 2 ^ 31 - 1.

(** Two's-complement reduction into the range of [int]. *)
Definition wrap (z : Z) : Z := (z + 2 ^ 31) mod 2 ^ 32 - 2 ^ 31.

Definition in_range (z : Z) : Prop := INT_MIN <= z <= INT_MAX.

End Int.

(** ** Target properties

    [globals.c] is compiled both by the host compiler and by shecc itself;
    whether plain [char] is signed differs between the targets. *)

Class Platform := { char_is_signed : bool }.

Definition signed_char_platform : Platform := {| char_is_signed := true |}.
Definition unsigned_char_platform : Platform := {| char_is_signed := false |}.

(** ** C strings *)

Definition is_nul (c : ascii) : bool := Ascii.eqb c Ascii.zero.

(** The value of a character as [unsigned char]. *)
Definition uchar (c : ascii) : Z := Z.of_N (N_of_ascii c).

(** The value of [*key] after promotion to [int]. *)
Definition char_to_int `{Platform} (c : ascii) : Z :=
  if char_is_signed && (128 <=? uchar c) then uchar c - 256 else uchar c.

(** The characters before the terminator: what [strcpy] copies. *)
Fixpoint cstr (s : string) : string :=
  match s with
  | EmptyString => EmptyString
  | String c s' => if is_nul c then EmptyString else String c (cstr s')
  end.

Definition strcpy (src : string) : string := cstr src.

(** The character at the head of a C string, NUL at its end. *)
Definition head_char (s : string) : ascii :=
  match s with
  | EmptyString => Ascii.zero
  | String c _ => c
  end.

(** [strcmp]: the difference of the first pair of characters that differ
    (compared as [unsigned char]), zero when the strings agree up to
    their terminators. *)
Fixpoint strcmp (a b : string) : Z :=
  match a with
  | EmptyString => 0 - uchar (head_char b)
  | String x a' =>
      if is_nul x then 0 - uchar (head_char b)
      else
        match b with
        | EmptyString => uchar x
        | String y b' => if Ascii.eqb x y then strcmp a' b' else uchar x - uchar y
        end
  end.

(** [!strcmp(a, b)] *)
Definition streq (a b : string) : bool := strcmp a b =? 0.

(** [strlen]: the number of characters before the terminator. *)
Fixpoint strlen (s : string) : Z :=
  match s with
  | EmptyString => 0
  | String c s' => if is_nul c then 0 else 1 + strlen s'
  end.

(** ** Outcomes *)

Inductive fault : Type :=
| NullDeref                 (* member access through a null pointer *)
| Dangling                  (* access through a pointer to no object *)
| OutOfBounds (i : Z).      (* array element [i] outside of the array *)

Inductive outcome (A : Type) : Type :=
| Ret (a : A)               (* the routine returns [a] *)
| Abort (diag : string)     (* [abort()] after printing [diag] *)
| Fault (f : fault)         (* undefined behaviour *)
| OutOfFuel.                (* the recursion budget of the model ran out *)

Arguments Ret {A} a.
Arguments Abort {A} diag.
Arguments Fault {A} f.
Arguments OutOfFuel {A}.

#[global] Instance outcome_ret : MRet outcome := fun A a => Ret a.

#[global] Instance outcome_bind : MBind outcome := fun A B k m =>
  match m with
  | Ret a => k a
  | Abort d => Abort d
  | Fault f => Fault f
  | OutOfFuel => OutOfFuel
  end.

(** [error(msg)]: prints the diagnostic for [msg] and aborts. *)
Definition error {A} (msg : string) : outcome A := Abort msg.

(** [a[i]] for an array [a] given by the list of its elements. *)
Definition array_get {A} (a : list A) (i : Z) : outcome A :=
  if i <? 0 then Fault (OutOfBounds i)
  else match a !! Z.to_nat i with
       | Some x => Ret x
       | None => Fault (OutOfBounds i)
       end.

(** [a[i] = x] *)
Definition array_set {A} (a : list A) (i : Z) (x : A) : outcome (list A) :=
  if (i <? 0) || (Z.of_nat (length a) <=? i) then Fault (OutOfBounds i)
  else Ret (<[Z.to_nat i := x]> a).

(** A [void *], or a pointer to a [malloc]ed object: a heap location. *)
Definition ptr : Type := option nat.

(** ** Capacities *)

(** Modelled from the spec: the constants [MAX_VAR_LEN], [MAX_ALIASES],
    [MAX_CONSTANTS] and [MAX_LABEL] of [defs.h].  No routine depends on
    their values, which are parameters here.  A name member of an entry
    ([alias] and [value] of [alias_t], [name] of [macro_t] and of
    [label_lut_t], [alias] of [constant_t], [var_name] of [var_t]) is an
    array of [MAX_VAR_LEN] characters.  [global_init] allocates [ALIASES]
    and [MACROS] with [MAX_ALIASES] entries each, [CONSTANTS] with
    [MAX_CONSTANTS] and [LABEL_LUT] with [MAX_LABEL]. *)
Class Limits := {
  MAX_VAR_LEN : Z;
  MAX_ALIASES : Z;
  MAX_CONSTANTS : Z;
  MAX_LABEL : Z
}.

(** Capacities for the examples. *)
Definition example_limits : Limits :=
  {| MAX_VAR_LEN := 32; MAX_ALIASES := 128; MAX_CONSTANTS := 1024;
     MAX_LABEL := 4096 |}.

(** [strcpy(dst, src)] into a member [char dst[cap]]: the characters of
    [src] and the terminator are written from [dst[0]] on.  With [cap]
    characters or more in [src] the copy writes [dst[cap]], outside of the
    member; otherwise the member holds the copy. *)
Definition strcpy_member (cap : Z) (src : string) : outcome string :=
  if strlen src <? cap then Ret (strcpy src) else Fault (OutOfBounds cap).

(** [&ARENA[idx++]] followed by a store through the pointer, for an arena
    of [cap] entries of which the first [idx] are in use: with [idx] at
    [cap] the store is outside of the arena. *)
Definition next_entry {A} (cap : Z) (arena : list A) : outcome unit :=
  if Z.of_nat (length arena) <? cap then Ret tt
  else Fault (OutOfBounds (Z.of_nat (length arena))).

(** ** Hashmap *)

Section Hash.
Context `{Platform}.

(** The loop [for (; *key; key++) { hash ^= *key; hash *= 0x01000193; }] *)
Fixpoint hash_loop (hash : Z) (key : string) : Z :=
  match key with
  | EmptyString => hash
  | String c key' =>
      if is_nul c then hash
      else
        let hash := Z.lxor hash (char_to_int c) in
        let hash := Int.wrap (hash * 0x01000193) in
        hash_loop hash key'
  end.

Definition hashmap_hash_index (size : Z) (key : string) : Z :=
  let hash := hash_loop (Int.wrap 0x811c9dc5) key in
  let mask := Z.shiftr hash 31 in
  Z.land (Int.wrap (Z.lxor hash mask - mask)) (Int.wrap (size - 1)).

End Hash.

Definition round_up_pow2 (v : Z) : Z :=
  let v := Int.wrap (v - 1) in
  let v := Z.lor v (Z.shiftr v 1) in
  let v := Z.lor v (Z.shiftr v 2) in
  let v := Z.lor v (Z.shiftr v 4) in
  let v := Z.lor v (Z.shiftr v 8) in
  let v := Z.lor v (Z.shiftr v 16) in
  Int.wrap (v + 1).

(** Modelled from the spec: [hashmap_node_t] of [defs.h], with the members
    [key] and [val]; the [next] pointers of a bucket's nodes make the
    chain, which is the list of the nodes in chain order. *)
Record hashmap_node_t : Type := mk_node {
  key : string;
  val : ptr
}.

Abbreviation chain := (list hashmap_node_t).

(** Modelled from the spec: [hashmap_t] of [defs.h], with the members
    [size] and [buckets]; an empty chain is a null bucket. *)
Record hashmap_t : Type := mk_hashmap {
  hm_size : Z;
  hm_buckets : list chain
}.

(** [mem]: whether the allocator has memory left; without memory the
    routine prints a message and returns null. *)
Definition hashmap_create (mem : bool) (size : Z) : option hashmap_t :=
  if mem then
    let size := round_up_pow2 size in
    Some {| hm_size := size; hm_buckets := replicate (Z.to_nat size) [] |}
  else None.

(** The key is not null here: [hashmap_hash_index] has read through it
    before a node is made. *)
Definition hashmap_node_new (mem : bool) (k : string) (v : ptr)
  : option hashmap_node_t :=
  if mem then Some {| key := strcpy k; val := v |} else None.

(** A node pointer as a chain: a null pointer is the empty chain. *)
Definition chain_of (node : option hashmap_node_t) : chain :=
  match node with
  | Some n => [n]
  | None => []
  end.

(** [while (cur->next) cur = cur->next; cur->next = node;] on a chain
    that starts at a node [cur]. *)
Fixpoint set_last_next (c : chain) (node : option hashmap_node_t) : chain :=
  match c with
  | [] => []
  | [cur] => cur :: chain_of node
  | cur :: c' => cur :: set_last_next c' node
  end.

(** The scan of [hashmap_get] along a chain. *)
Fixpoint chain_find (c : chain) (k : string) : ptr :=
  match c with
  | [] => None
  | cur :: c' => if streq (key cur) k then val cur else chain_find c' k
  end.

Section Hashmap.
Context `{Platform}.

(** The map object after the call; a null [map] stays null. *)
Definition hashmap_put (mem : bool) (map : option hashmap_t)
    (k : string) (v : ptr) : outcome (option hashmap_t) :=
  match map with
  | None => Ret None
  | Some m =>
      let index := hashmap_hash_index (hm_size m) k in
      cur ← array_get (hm_buckets m) index;
      buckets ← array_set (hm_buckets m) index
                  match cur with
                  | [] => chain_of (hashmap_node_new mem k v)
                  | _ => set_last_next cur (hashmap_node_new mem k v)
                  end;
      Ret (Some {| hm_size := hm_size m; hm_buckets := buckets |})
  end.

Definition hashmap_get (map : option hashmap_t) (k : string) : outcome ptr :=
  match map with
  | None => Ret None
  | Some m =>
      let index := hashmap_hash_index (hm_size m) k in
      cur ← array_get (hm_buckets m) index;
      Ret (chain_find cur k)
  end.

Definition hashmap_contains (map : option hashmap_t) (k : string)
  : outcome bool :=
  v ← hashmap_get map k;
  Ret (bool_decide (v ≠ None)).

End Hashmap.

(** ** Types *)

(** Modelled from the spec: the enumeration [base_type_t] of [defs.h]. *)
Inductive base_type_t : Type :=
| TYPE_void | TYPE_int | TYPE_char | TYPE_struct | TYPE_typedef.

#[global] Instance base_type_eq_dec : EqDecision base_type_t.
Proof. solve_decision. Defined.

(** Modelled from the spec: [type_t] of [defs.h], with the members that
    [find_type] reads ([ty_size] is [size]); [base_struct] points to an
    entry of [TYPES]. *)
Record type_t : Type := mk_type {
  type_name : string;
  base_type : base_type_t;
  ty_size : Z;
  base_struct : option nat
}.

(** The loop of [find_type] over [TYPES[i ..]]; the result is the pointer
    returned, [Some j] for [&TYPES[j]]. *)
Fixpoint find_type_from (i : nat) (types : list type_t)
    (name : string) (flag : Z) : option nat :=
  match types with
  | [] => None
  | t :: types' =>
      if bool_decide (base_type t = TYPE_struct) then
        if flag =? 1 then find_type_from (S i) types' name flag
        else if streq (type_name t) name then Some i
        else find_type_from (S i) types' name flag
      else
        if flag =? 2 then find_type_from (S i) types' name flag
        else if streq (type_name t) name then
          if bool_decide (base_type t = TYPE_typedef) && (ty_size t =? 0)
          then base_struct t
          else Some i
        else find_type_from (S i) types' name flag
  end.

Definition find_type (TYPES : list type_t) (name : string) (flag : Z)
  : option nat :=
  find_type_from 0 TYPES name flag.

(** ** Aliases *)

(** Modelled from the spec: [alias_t] of [defs.h]. *)
Record alias_t : Type := mk_alias {
  alias : string;
  value : string;
  disabled : bool
}.

(** The table after the call.  The entry taken is [ALIASES[aliases_idx]];
    both strings are copied into members of [MAX_VAR_LEN] characters. *)
Definition add_alias `{Limits} (ALIASES : list alias_t) (a v : string)
  : outcome (list alias_t) :=
  _ ← next_entry MAX_ALIASES ALIASES;
  a' ← strcpy_member MAX_VAR_LEN a;
  v' ← strcpy_member MAX_VAR_LEN v;
  Ret (ALIASES ++ [{| alias := a'; value := v'; disabled := false |}]).

(** The string that the returned pointer points to. *)
Fixpoint find_alias (ALIASES : list alias_t) (a : string) : option string :=
  match ALIASES with
  | [] => None
  | e :: rest =>
      if negb (disabled e) && streq a (alias e) then Some (value e)
      else find_alias rest a
  end.

(** The value returned and the table after the call. *)
Fixpoint remove_alias (ALIASES : list alias_t) (a : string)
  : bool * list alias_t :=
  match ALIASES with
  | [] => (false, [])
  | e :: rest =>
      if negb (disabled e) && streq a (alias e)
      then (true, {| alias := alias e; value := value e; disabled := true |} :: rest)
      else let '(r, rest') := remove_alias rest a in (r, e :: rest')
  end.

(** ** Variables, functions, macros and blocks *)

(** Modelled from the spec: [var_t] of [defs.h], with the member the
    lookups read, [var_name], and members that tell two declarations of
    one name apart ([var_type_name] is [type_name]). *)
Record var_t : Type := mk_var {
  var_type_name : string;
  var_name : string;
  is_ptr : Z;
  array_size : Z
}.

(** Modelled from the spec: [func_t] of [defs.h]; [param_defs] holds the
    [num_params] parameters. *)
Record func_t : Type := mk_func {
  return_def : var_t;
  param_defs : list var_t;
  stack_size : Z
}.

(** Modelled from the spec: [macro_t] of [defs.h]; [macro_param_defs]
    holds the [num_param_defs] parameters of [param_defs], [params] is the
    array of source indices, [macro_name] and [macro_disabled] are [name]
    and [disabled]. *)
Record macro_t : Type := mk_macro {
  macro_name : string;
  macro_param_defs : list var_t;
  params : list Z;
  macro_disabled : bool
}.

(** Modelled from the spec: [block_t] of [defs.h]; [parent] is an index of
    [BLOCKS], the list of the blocks in the order of [add_block], [func] a
    location of the heap of functions, [macro] an index of [MACROS];
    [locals] holds the [next_local] variables declared in the block. *)
Record block_t : Type := mk_block {
  parent : option nat;
  func : ptr;
  macro : option nat;
  locals : list var_t
}.

(** [p->member] through a pointer into an arena. *)
Definition deref {A} (arena : list A) (p : option nat) : outcome A :=
  match p with
  | None => Fault NullDeref
  | Some i =>
      match arena !! i with
      | Some x => Ret x
      | None => Fault Dangling
      end
  end.

(** [p->member] through a pointer into a heap. *)
Definition load {A} (heap : gmap nat A) (p : ptr) : outcome A :=
  match p with
  | None => Fault NullDeref
  | Some l =>
      match heap !! l with
      | Some x => Ret x
      | None => Fault Dangling
      end
  end.

(** [for (i = 0; i < n; i++) if (!strcmp(vars[i].var_name, name)) ...]:
    the first index whose variable has the name. *)
Fixpoint scan_vars_from (i : nat) (vars : list var_t) (name : string)
  : option nat :=
  match vars with
  | [] => None
  | v :: vars' =>
      if streq (var_name v) name then Some i
      else scan_vars_from (S i) vars' name
  end.

Definition scan_vars (vars : list var_t) (name : string) : option nat :=
  scan_vars_from 0 vars name.

Definition find_macro_param_src_idx (MACROS : list macro_t)
    (BLOCKS : list block_t) (name : string) (parent_ : option nat)
  : outcome Z :=
  (* macro_t *macro = parent->macro; *)
  blk ← deref BLOCKS parent_;
  let macro_ := macro blk in
  _ ← (if bool_decide (parent_ = None)
       then error "The macro expansion is not supported in the global scope"
       else Ret tt);
  if bool_decide (macro_ = None) then Ret 0
  else
    m ← deref MACROS macro_;
    match scan_vars (macro_param_defs m) name with
    | Some i => array_get (params m) (Z.of_nat i)
    | None => Ret 0
    end.

(** ** Functions: [FUNCS_MAP] and the heap of [func_t] objects *)

(** The part of the global state that [add_func] works on: the map, and
    the [func_t] objects that its values point to. *)
Record funcs_state : Type := mk_funcs {
  FUNCS_MAP : option hashmap_t;
  func_heap : gmap nat func_t
}.

Definition set_stack_size (f : func_t) (n : Z) : func_t :=
  {| return_def := return_def f; param_defs := param_defs f; stack_size := n |}.

(** The function with [n] in the member [return_def.var_name]. *)
Definition with_return_name (f : func_t) (n : string) : func_t :=
  {| return_def := {| var_type_name := var_type_name (return_def f);
                      var_name := n;
                      is_ptr := is_ptr (return_def f);
                      array_size := array_size (return_def f) |};
     param_defs := param_defs f;
     stack_size := stack_size f |}.

(** [strcpy(fn->return_def.var_name, name)]: the member has [MAX_VAR_LEN]
    characters. *)
Definition set_return_name `{Limits} (f : func_t) (name : string)
  : outcome func_t :=
  n ← strcpy_member MAX_VAR_LEN name;
  Ret (with_return_name f n).

Section Funcs.
Context `{Platform} `{Limits}.

Definition find_func (st : funcs_state) (name : string) : outcome ptr :=
  hashmap_get (FUNCS_MAP st) name.

(** [fn->stack_size = 4; return fn;] *)
Definition start_stack (fn : ptr) (st : funcs_state)
  : outcome (ptr * funcs_state) :=
  f ← load (func_heap st) fn;
  match fn with
  | Some l =>
      Ret (fn, {| FUNCS_MAP := FUNCS_MAP st;
                  func_heap := <[l := set_stack_size f 4]> (func_heap st) |})
  | None => Fault NullDeref
  end.

(** [fn_mem]: the result of [malloc(sizeof(func_t))] when it is called,
    the contents of the fresh object; [None] when it returns null.  The
    object is placed at a location not in use.  [node_mem]: whether the
    allocations of [hashmap_put] succeed.  The result is the pointer
    returned and the state after the call. *)
Definition add_func (fn_mem : option func_t) (node_mem : bool)
    (st : funcs_state) (name : string) : outcome (ptr * funcs_state) :=
  registered ← hashmap_contains (FUNCS_MAP st) name;
  if registered : bool then
    fn ← hashmap_get (FUNCS_MAP st) name;
    start_stack fn st
  else
    match fn_mem with
    | None => Ret (None, st)
    | Some obj =>
        let l := fresh (dom (func_heap st)) in
        let heap := <[l := obj]> (func_heap st) in
        map ← hashmap_put node_mem (FUNCS_MAP st) name (Some l);
        obj ← set_return_name obj name;
        let heap := <[l := obj]> heap in
        start_stack (Some l) {| FUNCS_MAP := map; func_heap := heap |}
    end.

End Funcs.

(** ** Scopes: [find_local_var], [find_global_var], [find_var] *)

(** A [var_t *] returned by a lookup. *)
Inductive var_ref : Type :=
| LocalRef (block : nat) (i : nat)    (* [&block->locals[i]] *)
| ParamRef (fn : nat) (i : nat).      (* [&fn->param_defs[i]] *)

#[global] Instance var_ref_eq_dec : EqDecision var_ref.
Proof. solve_decision. Defined.

(** The loop [for (; block; block = block->parent)] of [find_local_var];
    [fuel] bounds the number of blocks visited. *)
Fixpoint find_in_blocks (fuel : nat) (BLOCKS : list block_t) (token : string)
    (block : option nat) : outcome (option var_ref) :=
  match block with
  | None => Ret None
  | Some b =>
      match fuel with
      | O => OutOfFuel
      | S fuel' =>
          blk ← deref BLOCKS block;
          match scan_vars (locals blk) token with
          | Some i => Ret (Some (LocalRef b i))
          | None => find_in_blocks fuel' BLOCKS token (parent blk)
          end
      end
  end.

Definition find_local_var (fuel : nat) (funcs : gmap nat func_t)
    (BLOCKS : list block_t) (token : string) (block : option nat)
  : outcome (option var_ref) :=
  (* func_t *fn = block->func; *)
  blk ← deref BLOCKS block;
  let fn := func blk in
  found ← find_in_blocks fuel BLOCKS token block;
  match found with
  | Some v => Ret (Some v)
  | None =>
      match fn with
      | Some l =>
          f ← load funcs fn;
          Ret (ParamRef l <$> scan_vars (param_defs f) token)
      | None => Ret None
      end
  end.

(** [BLOCKS.head] is the first block of the list. *)
Definition find_global_var (BLOCKS : list block_t) (token : string)
  : outcome (option var_ref) :=
  block ← deref BLOCKS (if BLOCKS is [] then None else Some 0%nat);
  Ret (LocalRef 0 <$> scan_vars (locals block) token).

Definition find_var (fuel : nat) (funcs : gmap nat func_t)
    (BLOCKS : list block_t) (token : string) (parent_ : option nat)
  : outcome (option var_ref) :=
  var ← find_local_var fuel funcs BLOCKS token parent_;
  match var with
  | None => find_global_var BLOCKS token
  | Some _ => Ret var
  end.

(** ** Basic blocks: [bb_connect] *)

(** Modelled from the spec: [MAX_BB_PRED] of [defs.h], the number of
    predecessor slots of a basic block. *)
Definition MAX_BB_PRED : Z := 6.

(** Modelled from the spec: the enumeration [bb_connection_type_t] of
    [defs.h], the kinds of edges. *)
Inductive bb_connection_type_t : Type := NEXT | THEN | ELSE.

#[global] Instance bb_connection_type_eq_dec : EqDecision bb_connection_type_t.
Proof. solve_decision. Defined.

(** Modelled from the spec: [bb_connection_t] of [defs.h], a predecessor
    slot; the slot is empty when [bb] is null. *)
Record bb_connection_t : Type := mk_conn {
  bb : ptr;
  type : bb_connection_type_t
}.

#[global] Instance bb_connection_eq_dec : EqDecision bb_connection_t.
Proof. solve_decision. Defined.

(** Modelled from the spec: [basic_block_t] of [defs.h], with the members
    of the control-flow graph; [prev] is the array [prev[MAX_BB_PRED]]. *)
Record basic_block_t : Type := mk_bb {
  prev : list bb_connection_t;
  next : ptr;
  then_ : ptr;
  else_ : ptr
}.

Abbreviation bb_heap := (gmap nat basic_block_t).

(** [while (succ->prev[i].bb) i++;] started at [i]: reading a slot
    outside of the array is a fault. *)
Fixpoint first_empty_slot (slots : list bb_connection_t) (i : Z) : outcome Z :=
  match slots with
  | [] => Fault (OutOfBounds i)
  | c :: slots' =>
      match bb c with
      | Some _ => first_empty_slot slots' (i + 1)
      | None => Ret i
      end
  end.

Definition set_prev (b : basic_block_t) (p : list bb_connection_t) : basic_block_t :=
  {| prev := p; next := next b; then_ := then_ b; else_ := else_ b |}.

(** [pred->next = succ], [pred->then_ = succ] or [pred->else_ = succ] *)
Definition set_successor (b : basic_block_t) (t : bb_connection_type_t)
    (succ : ptr) : basic_block_t :=
  match t with
  | NEXT => {| prev := prev b; next := succ; then_ := then_ b; else_ := else_ b |}
  | THEN => {| prev := prev b; next := next b; then_ := succ; else_ := else_ b |}
  | ELSE => {| prev := prev b; next := next b; then_ := then_ b; else_ := succ |}
  end.

(** The successor member that an edge kind selects. *)
Definition successor (b : basic_block_t) (t : bb_connection_type_t) : ptr :=
  match t with
  | NEXT => next b
  | THEN => then_ b
  | ELSE => else_ b
  end.

(** The heap of basic blocks after the call. *)
Definition bb_connect (h : bb_heap) (pred succ : ptr)
    (t : bb_connection_type_t) : outcome bb_heap :=
  match pred, succ with
  | None, _ => Abort EmptyString
  | _, None => Abort EmptyString
  | Some p, Some s =>
      sb ← load h succ;
      i ← first_empty_slot (prev sb) 0;
      if i >? MAX_BB_PRED - 1 then Abort "Error: too many predecessors"
      else
        slots ← array_set (prev sb) i {| bb := pred; type := t |};
        let h := <[s := set_prev sb slots]> h in
        pb ← load h pred;
        Ret (<[p := set_successor pb t succ]> h)
  end.

(** ** Notions used in the statements *)

(** [is_pow2 r]: [r] is [2 ^ k] for a natural exponent [k]. *)
Definition is_pow2 (r : Z) : Prop := exists k, 0 <= k /\ r = 2 ^ k.

(** [covers x y n]: bit [i] of [y] is set exactly when one of the [n] bits
    of [x] from position [i] upwards is set.  Each [v |= v >> n] of
    [round_up_pow2] doubles the width [n]. *)
Definition covers (x y n : Z) : Prop :=
  forall i, 0 <= i ->
    Z.testbit y i = true <-> exists d, 0 <= d < n /\ Z.testbit x (i + d) = true.

(** The five shift-or steps of [round_up_pow2]. *)
Definition smear (x : Z) : Z :=
  let v := Z.lor x (Z.shiftr x 1) in
  let v := Z.lor v (Z.shiftr v 2) in
  let v := Z.lor v (Z.shiftr v 4) in
  let v := Z.lor v (Z.shiftr v 8) in
  Z.lor v (Z.shiftr v 16).

(** A map as [hashmap_create] lays it out: [size] buckets, for a positive
    [size] that an [int] holds. *)
Definition wf_hashmap (m : hashmap_t) : Prop :=
  1 <= hm_size m <= Int.INT_MAX /\ Z.of_nat (length (hm_buckets m)) = hm_size m.

(** No node of the map has a key equal to [k]. *)
Definition key_absent (m : hashmap_t) (k : string) : Prop :=
  forall c n, c ∈ hm_buckets m -> n ∈ c -> streq (key n) k = false.

(** Whether a node of the chain has a key equal to [k]. *)
Definition chain_has (c : chain) (k : string) : bool :=
  existsb (fun n => streq (key n) k) c.

(** A one-bucket map that already holds a node for [f]. *)
Definition map_with_f : hashmap_t :=
  {| hm_size := 1; hm_buckets := [[ {| key := "f"%string; val := Some 7%nat |} ]] |}.

(** The map that [hashmap_create(4)] returns. *)
Definition empty_map4 : hashmap_t :=
  {| hm_size := 4; hm_buckets := [[]; []; []; []] |}.

(** A table with [struct S] and the forward-declared [typedef struct S T]. *)
Definition fwd_types : list type_t :=
  [ {| type_name := "S"%string; base_type := TYPE_struct; ty_size := 8;
       base_struct := None |};
    {| type_name := "T"%string; base_type := TYPE_typedef; ty_size := 0;
       base_struct := Some 0%nat |} ].

(** The number of entries of [ALIASES] that a lookup of [a] can hit. *)
Definition alias_hit (a : string) (e : alias_t) : bool :=
  negb (disabled e) && streq a (alias e).

Definition enabled_matches (ALIASES : list alias_t) (a : string) : nat :=
  length (List.filter (alias_hit a) ALIASES).

(** [#define X a] followed by [#define X b]. *)
Definition twice_defined : list alias_t :=
  [ {| alias := "X"%string; value := "a"%string; disabled := false |};
    {| alias := "X"%string; value := "b"%string; disabled := false |} ].

(** An alias table with one enabled entry for [X] behind a disabled one. *)
Definition once_defined : list alias_t :=
  [ {| alias := "X"%string; value := "old"%string; disabled := true |};
    {| alias := "Y"%string; value := "y"%string; disabled := false |};
    {| alias := "X"%string; value := "a"%string; disabled := false |} ].

(** The number of occupied predecessor slots. *)
Definition occupied (slots : list bb_connection_t) : nat :=
  length (filter (fun c => bb c <> None) slots).

(** The number of slots that hold the edge of kind [k] from [p]. *)
Definition edge_count (slots : list bb_connection_t) (p : nat)
    (k : bb_connection_type_t) : nat :=
  length (filter (fun c => c = {| bb := Some p; type := k |}) slots).

(** A block as [bb_create] leaves it. *)
Definition fresh_bb : basic_block_t :=
  {| prev := replicate (Z.to_nat MAX_BB_PRED) {| bb := None; type := NEXT |};
     next := None; then_ := None; else_ := None |}.

(** A block with the six predecessors [10 .. 15]. *)
Definition full_bb : basic_block_t :=
  {| prev := (fun p => {| bb := Some p; type := NEXT |}) <$> seq 10 6;
     next := None; then_ := None; else_ := None |}.

(** [scope_chain BLOCKS block chain]: following the [parent] pointers from
    [block] reaches null, through the blocks [chain], innermost first. *)
Inductive scope_chain (BLOCKS : list block_t) : option nat -> list nat -> Prop :=
| scope_chain_end : scope_chain BLOCKS None []
| scope_chain_step b blk rest :
    BLOCKS !! b = Some blk ->
    scope_chain BLOCKS (parent blk) rest ->
    scope_chain BLOCKS (Some b) (b :: rest).

(** The declarations that a lookup can return, each with its pointer. *)
Definition decl : Type := var_ref * var_t.

Definition local_decls (BLOCKS : list block_t) (b : nat) : list decl :=
  match BLOCKS !! b with
  | Some blk => imap (fun i v => (LocalRef b i, v)) (locals blk)
  | None => []
  end.

Definition param_decls (funcs : gmap nat func_t) (fn : ptr) : list decl :=
  match fn with
  | Some l =>
      match funcs !! l with
      | Some f => imap (fun i v => (ParamRef l i, v)) (param_defs f)
      | None => []
      end
  | None => []
  end.

(** The order of the search of [find_var] from a block with the scope
    chain [chain] and the function [fn]: the locals of the blocks of the
    chain, innermost block first; then the parameters of the function;
    then the locals of the global block, the head of [BLOCKS]. *)
Definition search_order (funcs : gmap nat func_t) (BLOCKS : list block_t)
    (chain : list nat) (fn : ptr) : list decl :=
  (chain ≫= local_decls BLOCKS) ++ param_decls funcs fn ++ local_decls BLOCKS 0.

(** The first declaration of the name in a list of declarations. *)
Definition first_named (token : string) (decls : list decl) : option var_ref :=
  fst <$> List.find (fun d => streq (var_name d.2) token) decls.

Definition int_var (name : string) : var_t :=
  {| var_type_name := "int"%string; var_name := name; is_ptr := 0; array_size := 0 |}.

(** The global block declares [x] and [y]; the body of a function is block
    1, and the block 2 nested in it declares [x] again. *)
Definition nested_blocks : list block_t :=
  [ {| parent := None; func := None; macro := None;
       locals := [int_var "x"%string; int_var "y"%string] |};
    {| parent := None; func := Some 0%nat; macro := None;
       locals := [int_var "a"%string] |};
    {| parent := Some 1%nat; func := Some 0%nat; macro := None;
       locals := [int_var "b"%string; int_var "x"%string] |} ].

Definition one_func : gmap nat func_t :=
  {[ 0%nat := {| return_def := int_var "f"%string; param_defs := [int_var "n"%string];
                 stack_size := 4 |} ]}.

(** The state after [main] was registered in a map of four buckets. *)
Definition main_registered : funcs_state :=
  {| FUNCS_MAP :=
       Some {| hm_size := 4;
               hm_buckets := [[ {| key := "main"%string; val := Some 0%nat |} ]; []; []; []] |};
     func_heap :=
       {[ 0%nat := {| return_def := int_var "main"%string; param_defs := [int_var "argc"%string];
                      stack_size := 20 |} ]} |}.

(** ** Further routines of [globals.c] *)

(** [set_var_liveout] on the member [liveness] of the variable, the only
    member it reads or writes: the member after the call. *)
Definition set_var_liveout (liveness end_ : Z) : Z :=
  if liveness >=? end_ then liveness else end_.

(** Modelled from the spec: [label_lut_t] of [defs.h] ([label_name] is
    [name]). *)
Record label_lut_t : Type := mk_label {
  label_name : string;
  offset : Z
}.

(** The table after the call.  The entry taken is
    [LABEL_LUT[label_lut_idx]]; the name is copied into a member of
    [MAX_VAR_LEN] characters. *)
Definition add_label `{Limits} (LABEL_LUT : list label_lut_t) (name : string)
    (off : Z) : outcome (list label_lut_t) :=
  _ ← next_entry MAX_LABEL LABEL_LUT;
  n ← strcpy_member MAX_VAR_LEN name;
  Ret (LABEL_LUT ++ [{| label_name := n; offset := off |}]).

Fixpoint find_label_offset (LABEL_LUT : list label_lut_t) (name : string) : Z :=
  match LABEL_LUT with
  | [] => -1
  | e :: rest =>
      if streq (label_name e) name then offset e
      else find_label_offset rest name
  end.

(** Modelled from the spec: [constant_t] of [defs.h] ([const_alias] and
    [const_value] are [alias] and [value]). *)
Record constant_t : Type := mk_constant {
  const_alias : string;
  const_value : Z
}.

(** The table after the call.  The entry taken is
    [CONSTANTS[constants_idx]]; the name is copied into a member of
    [MAX_VAR_LEN] characters. *)
Definition add_constant `{Limits} (CONSTANTS : list constant_t) (a : string)
    (v : Z) : outcome (list constant_t) :=
  _ ← next_entry MAX_CONSTANTS CONSTANTS;
  a' ← strcpy_member MAX_VAR_LEN a;
  Ret (CONSTANTS ++ [{| const_alias := a'; const_value := v |}]).

(** The loop of [find_constant] over [CONSTANTS[i ..]]; [Some j] is
    [&CONSTANTS[j]]. *)
Fixpoint find_constant_from (i : nat) (consts : list constant_t) (a : string)
  : option nat :=
  match consts with
  | [] => None
  | e :: rest =>
      if streq (const_alias e) a then Some i
      else find_constant_from (S i) rest a
  end.

Definition find_constant (CONSTANTS : list constant_t) (a : string) : option nat :=
  find_constant_from 0 CONSTANTS a.

(** [add_macro]: [slot] is what the entry [MACROS[macros_idx]] of the
    arena holds before the call; the members that the routine does not
    write keep it.  [MACROS] has the [MAX_ALIASES] entries that
    [global_init] allocates, and the name is copied into a member of
    [MAX_VAR_LEN] characters.  The result is the pointer returned and the
    table. *)
Definition add_macro `{Limits} (slot : macro_t) (MACROS : list macro_t)
    (name : string) : outcome (option nat * list macro_t) :=
  _ ← next_entry MAX_ALIASES MACROS;
  n ← strcpy_member MAX_VAR_LEN name;
  Ret (Some (length MACROS),
       MACROS ++ [{| macro_name := n;
                     macro_param_defs := macro_param_defs slot;
                     params := params slot;
                     macro_disabled := false |}]).

Fixpoint find_macro_from (i : nat) (macros : list macro_t) (name : string)
  : option nat :=
  match macros with
  | [] => None
  | e :: rest =>
      if negb (macro_disabled e) && streq name (macro_name e) then Some i
      else find_macro_from (S i) rest name
  end.

Definition find_macro (MACROS : list macro_t) (name : string) : option nat :=
  find_macro_from 0 MACROS name.

Fixpoint remove_macro (MACROS : list macro_t) (name : string)
  : bool * list macro_t :=
  match MACROS with
  | [] => (false, [])
  | e :: rest =>
      if negb (macro_disabled e) && streq name (macro_name e)
      then (true, {| macro_name := macro_name e;
                     macro_param_defs := macro_param_defs e;
                     params := params e;
                     macro_disabled := true |} :: rest)
      else let '(r, rest') := remove_macro rest name in (r, e :: rest')
  end.

(** [add_block]: the pointer returned and [BLOCKS] after the call.  The
    result of [malloc] is not tested: without memory ([mem] false) the
    first store through [blk] is a null dereference. *)
Definition add_block (mem : bool) (BLOCKS : list block_t)
    (parent_ : option nat) (func_ : ptr) (macro_ : option nat)
  : outcome (option nat * list block_t) :=
  if mem then
    Ret (Some (length BLOCKS),
         BLOCKS ++ [{| parent := parent_; func := func_; macro := macro_;
                       locals := [] |}])
  else Fault NullDeref.

(** [find_member]: [FIELDS !! t] holds the [num_fields] members
    [TYPES[t].fields]; the result [(t, i)] is [&TYPES[t].fields[i]]. *)
Definition find_member (TYPES : list type_t) (FIELDS : list (list var_t))
    (token : string) (type_ : option nat) : outcome (option (nat * nat)) :=
  t ← deref TYPES type_;
  let type_ := if ty_size t =? 0 then base_struct t else type_ in
  _ ← deref TYPES type_;
  fields ← deref FIELDS type_;
  Ret ((fun i => (default 0%nat type_, i)) <$> scan_vars fields token).


(** [bb_create] on the members of the control-flow graph: the pointer
    returned and the heap after the call.  The result of [calloc] is not
    tested ([mem] false: a null dereference), and [parent->func->fn] is
    read through [parent] and [parent->func]. *)
Definition bb_create (mem : bool) (funcs : gmap nat func_t)
    (BLOCKS : list block_t) (h : bb_heap) (parent_ : option nat)
  : outcome (ptr * bb_heap) :=
  if mem then
    let l := fresh (dom h) in
    blk ← deref BLOCKS parent_;
    _ ← load funcs (func blk);
    Ret (Some l, <[l := fresh_bb]> h)
  else Fault NullDeref.

(** The loop of [bb_disconnect] from the slot [i], with [n] slots to go. *)
Fixpoint bb_disconnect_from (n : nat) (i : Z) (h : bb_heap) (pred succ : ptr)
  : outcome bb_heap :=
  match n with
  | O => Ret h
  | S n' =>
      sb ← load h succ;
      c ← array_get (prev sb) i;
      if bool_decide (bb c = pred) then
        pb ← load h pred;
        let h := match pred with
                 | Some p => <[p := set_successor pb (type c) None]> h
                 | None => h
                 end in
        sb ← load h succ;
        slots ← array_set (prev sb) i {| bb := None; type := type c |};
        Ret (match succ with
             | Some s => <[s := set_prev sb slots]> h
             | None => h
             end)
      else bb_disconnect_from n' (i + 1) h pred succ
  end.

Definition bb_disconnect (h : bb_heap) (pred succ : ptr) : outcome bb_heap :=
  bb_disconnect_from (Z.to_nat MAX_BB_PRED) 0 h pred succ.

(** Modelled from the spec: [symbol_t] of [defs.h] ([sym_var] and
    [sym_index] are [var] and [index]); the [next] pointers from
    [symbol_list.head] to [symbol_list.tail] make the list. *)
Record symbol_t : Type := mk_symbol {
  sym_var : option var_ref;
  sym_index : Z
}.

(** The scan [for (sym = head; sym; sym = sym->next) if (sym->var == var)]. *)
Definition symbol_known (symbols : list symbol_t) (var : option var_ref) : bool :=
  existsb (fun sym => bool_decide (sym_var sym = var)) symbols.

(** [add_symbol] on the member [symbol_list] of the basic block, the only
    member it reads or writes; [None] is a null [bb].  The result of
    [calloc] is not tested ([mem] false: a null dereference). *)
Definition add_symbol (mem : bool) (bb_ : option (list symbol_t))
    (var : option var_ref) : outcome (option (list symbol_t)) :=
  match bb_ with
  | None => Ret None
  | Some symbols =>
      if symbol_known symbols var then Ret (Some symbols)
      else if mem then
        match last symbols with
        | None => Ret (Some [{| sym_var := var; sym_index := 0 |}])
        | Some tail =>
            Ret (Some (symbols ++
                       [{| sym_var := var; sym_index := Int.wrap (sym_index tail + 1) |}]))
        end
      else Fault NullDeref
  end.

(** ** Further notions and data used in the statements *)

(** The functions before the first [add_func]: a map of four buckets and
    no function. *)
Definition empty_funcs : funcs_state :=
  {| FUNCS_MAP := Some empty_map4; func_heap := ∅ |}.

(** What a fresh [func_t] may hold before it is written. *)
Definition junk_func : func_t :=
  {| return_def := int_var "?"%string; param_defs := []; stack_size := -1 |}.

(** Whether the label table has an entry of the name. *)
Definition label_known (LABEL_LUT : list label_lut_t) (name : string) : bool :=
  existsb (fun e => streq (label_name e) name) LABEL_LUT.

(** Whether a lookup of [name] can hit the entry of [MACROS]. *)
Definition macro_hit (name : string) (e : macro_t) : bool :=
  negb (macro_disabled e) && streq name (macro_name e).

Definition enabled_macros (MACROS : list macro_t) (name : string) : nat :=
  length (List.filter (macro_hit name) MACROS).

(** A macro [MAX(a, b)], and the contents of an arena entry never used. *)
Definition max_macro : macro_t :=
  {| macro_name := "MAX"%string; macro_param_defs := [int_var "a"%string; int_var "b"%string];
     params := [10; 20]; macro_disabled := false |}.

Definition junk_macro : macro_t :=
  {| macro_name := "?"%string; macro_param_defs := []; params := [];
     macro_disabled := true |}.

(** What [bb_disconnect] does at the slot [j] that holds [pred], with the
    contents [c]: the successor member of [pred] that the slot names and
    the slot are cleared. *)
Definition disconnect_at (h : bb_heap) (pred succ : ptr) (j : Z)
    (c : bb_connection_t) : outcome bb_heap :=
  pb ← load h pred;
  let h := match pred with
           | Some p => <[p := set_successor pb (type c) None]> h
           | None => h
           end in
  sb ← load h succ;
  slots ← array_set (prev sb) j {| bb := None; type := type c |};
  Ret (match succ with
       | Some s => <[s := set_prev sb slots]> h
       | None => h
       end).

(** The symbols of a list carry the indices 0, 1, 2, ... in list order. *)
Definition dense (symbols : list symbol_t) : Prop :=
  forall i sym, symbols !! i = Some sym -> sym_index sym = Z.of_nat i.

(** The symbols [x] and [y] of the global block. *)
Definition two_symbols : list symbol_t :=
  [ {| sym_var := Some (LocalRef 0 0); sym_index := 0 |};
    {| sym_var := Some (LocalRef 0 1); sym_index := 1 |} ].

(** The members of the types of [fwd_types]: [struct S] has the members
    [a] and [b], the typedef entry has none. *)
Definition fwd_fields : list (list var_t) :=
  [ [int_var "a"%string; int_var "b"%string]; [] ].


(** ** The diagnostic of [error] *)

Definition newline : ascii := "010"%char.

(** [diagnostic[i++] = c] on the buffer [char diagnostic[512]], given by
    the characters written so far. *)
Definition put_char (diag : list ascii) (c : ascii) : outcome (list ascii) :=
  if Z.of_nat (length diag) <? 512 then Ret (diag ++ [c])
  else Fault (OutOfBounds (Z.of_nat (length diag))).

(** [for (offset = source_idx; offset >= 0 && SOURCE[offset] != '\n';
    offset--)] from a non-negative [offset]: the offset at the end. *)
Fixpoint scan_back (SOURCE : list ascii) (offset : nat) : outcome Z :=
  c ← array_get SOURCE (Z.of_nat offset);
  if Ascii.eqb c newline then Ret (Z.of_nat offset)
  else
    match offset with
    | O => Ret (-1)
    | S offset' => scan_back SOURCE offset'
    end.

(** [for (offset = 0; offset < MAX_SOURCE && SOURCE[start_idx + offset]
    != '\n'; offset++) diagnostic[i++] = SOURCE[start_idx + offset];]
    with [fuel] iterations to go before [offset] reaches [MAX_SOURCE] and
    [idx] for [start_idx + offset]. *)
Fixpoint copy_line (fuel : nat) (SOURCE : list ascii) (idx : Z)
    (diag : list ascii) : outcome (list ascii) :=
  match fuel with
  | O => Ret diag
  | S fuel' =>
      c ← array_get SOURCE idx;
      if Ascii.eqb c newline then Ret diag
      else
        diag ← put_char diag c;
        copy_line fuel' SOURCE (idx + 1) diag
  end.

(** [for (offset = start_idx; offset < source_idx; offset++)
    diagnostic[i++] = ' ';] with [n] iterations to go. *)
Fixpoint put_spaces (n : nat) (diag : list ascii) : outcome (list ascii) :=
  match n with
  | O => Ret diag
  | S n' =>
      diag ← put_char diag " "%char;
      put_spaces n' diag
  end.

(** The string in [diagnostic] that [error] prints before it aborts.
    [SOURCE] is the whole buffer, of [MAX_SOURCE] characters. *)
Definition error_diagnostic (SOURCE : list ascii) (source_idx : Z)
  : outcome string :=
  offset ← (if source_idx <? 0 then Ret source_idx
            else scan_back SOURCE (Z.to_nat source_idx));
  let start_idx := Int.wrap (offset + 1) in
  diag ← copy_line (length SOURCE) SOURCE start_idx [];
  diag ← put_char diag newline;
  diag ← put_spaces (Z.to_nat (source_idx - start_idx)) diag;
  (* strcpy(diagnostic + i, "^ Error occurs here"); *)
  if Z.of_nat (length diag) + 20 <=? 512
  then Ret (cstr (string_of_list_ascii diag ++ "^ Error occurs here"))
  else Fault (OutOfBounds 512).

(** The source text of two lines, in a buffer of 16 characters. *)
Definition two_lines : list ascii :=
  list_ascii_of_string "int x;" ++ [newline] ++
  list_ascii_of_string "a b c" ++ [newline] ++ replicate 3 Ascii.zero.

(** * Part II: properties *)

(** ** Machine integers *)

(** Goals that state that an integer is in the range of [int]. *)
Ltac int_range :=
  unfold Int.in_range, Int.INT_MIN, Int.INT_MAX in *; lia.

Lemma wrap_in_range z : Int.in_range (Int.wrap z).
Proof.
  unfold Int.in_range, Int.wrap, Int.INT_MIN, Int.INT_MAX.
  pose proof (Z.mod_pos_bound (z + 2 ^ 31) (2 ^ 32) ltac:(lia)). lia.
Qed.

Lemma wrap_small z : Int.in_range z -> Int.wrap z = z.
Proof.
  unfold Int.in_range, Int.wrap, Int.INT_MIN, Int.INT_MAX. intros Hz.
  rewrite Z.mod_small by lia. lia.
Qed.

(** [a & b] lies between [0] and [b] when [b] is not negative, whatever
    the sign of [a]. *)
Lemma land_bound a b : 0 <= b -> 0 <= Z.land a b <= b.
Proof.
  intros Hb. split; [apply Z.land_nonneg; right; exact Hb |].
  destruct (Z.eq_dec b 0) as [-> | Hnz]; [rewrite Z.land_0_r; lia |].
  set (n := Z.log2 b + 1).
  assert (Hn : 0 <= n) by (pose proof (Z.log2_nonneg b); lia).
  assert (Hlow : Z.land b (Z.ones n) = b) by (apply Z.land_ones_low; lia).
  rewrite <- Hlow at 1.
  rewrite (Z.land_comm b), Z.land_assoc, Z.land_ones by lia.
  pose proof (Z.mod_pos_bound a (2 ^ n) ltac:(apply Z.pow_pos_nonneg; lia)) as Hm.
  rewrite <- (Z2N.id (a mod 2 ^ n)), <- (Z2N.id b) at 1 by lia.
  rewrite <- N2Z.inj_land.
  rewrite <- (Z2N.id b) at 2 by lia.
  apply N2Z.inj_le, N.land_le_r.
Qed.

(** ** [round_up_pow2] *)

Lemma covers_self x : covers x x 1.
Proof.
  intros i Hi. split.
  - intros Hb. exists 0. rewrite Z.add_0_r. split; [lia | exact Hb].
  - intros (d & Hd & Hb). replace (i + d) with i in Hb by lia. exact Hb.
Qed.

Lemma covers_double x y n :
  0 < n -> covers x y n -> covers x (Z.lor y (Z.shiftr y n)) (2 * n).
Proof.
  intros Hn Hc i Hi.
  rewrite Z.lor_spec, Z.shiftr_spec by lia.
  rewrite orb_true_iff, (Hc i Hi), (Hc (i + n)) by lia.
  split.
  - intros [(d & Hd & Hb) | (d & Hd & Hb)].
    + exists d. split; [lia | exact Hb].
    + exists (n + d). split; [lia |]. now rewrite Z.add_assoc.
  - intros (d & Hd & Hb).
    destruct (Z_lt_dec d n) as [Hlt | Hge].
    + left. exists d. split; [lia | exact Hb].
    + right. exists (d - n). split; [lia |].
      now replace (i + n + (d - n)) with (i + d) by lia.
Qed.

Lemma covers_ones x y :
  0 < x < 2 ^ 32 -> 0 <= y -> covers x y 32 -> y = Z.ones (Z.log2 x + 1).
Proof.
  intros Hx Hy Hc.
  assert (Hlog : 0 <= Z.log2 x < 32).
  { split; [apply Z.log2_nonneg | apply Z.log2_lt_pow2; lia]. }
  apply Z.bits_inj'. intros i Hi.
  rewrite Z.testbit_ones_nonneg by lia.
  destruct (Z.ltb_spec i (Z.log2 x + 1)) as [Hlt | Hge].
  - apply (Hc i Hi). exists (Z.log2 x - i). split; [lia |].
    replace (i + (Z.log2 x - i)) with (Z.log2 x) by lia.
    apply Z.bit_log2. lia.
  - destruct (Z.testbit y i) eqn:Hbit; [| reflexivity].
    apply (Hc i Hi) in Hbit. destruct Hbit as (d & Hd & Hbit).
    rewrite Z.bits_above_log2 in Hbit by lia. discriminate.
Qed.

Lemma smear_covers x : covers x (smear x) 32.
Proof.
  unfold smear.
  pose proof (covers_self x) as H1.
  apply (covers_double _ _ 1) in H1; [| lia].
  apply (covers_double _ _ 2) in H1; [| lia].
  apply (covers_double _ _ 4) in H1; [| lia].
  apply (covers_double _ _ 8) in H1; [| lia].
  apply (covers_double _ _ 16) in H1; [| lia].
  exact H1.
Qed.

Lemma smear_nonneg x : 0 <= x -> 0 <= smear x.
Proof.
  intros Hx. unfold smear.
  repeat (apply Z.lor_nonneg; split; [| apply Z.shiftr_nonneg]); assumption.
Qed.

Lemma smear_pos x : 0 < x < 2 ^ 32 -> smear x = 2 ^ (Z.log2 x + 1) - 1.
Proof.
  intros Hx.
  rewrite (covers_ones x (smear x) Hx (smear_nonneg x ltac:(lia)) (smear_covers x)).
  rewrite Z.ones_equiv. lia.
Qed.

Lemma round_up_pow2_smear v :
  round_up_pow2 v = Int.wrap (smear (Int.wrap (v - 1)) + 1).
Proof. reflexivity. Qed.

(** In the range of the claim the result is [2 ^ (log2 (v - 1) + 1)]. *)
Lemma round_up_pow2_log2 v :
  2 <= v <= 2 ^ 30 -> round_up_pow2 v = 2 ^ (Z.log2 (v - 1) + 1).
Proof.
  intros Hv. rewrite round_up_pow2_smear.
  rewrite (wrap_small (v - 1)) by int_range.
  rewrite smear_pos by lia.
  assert (Hlog : 0 <= Z.log2 (v - 1) < 30).
  { split; [apply Z.log2_nonneg | apply Z.log2_lt_pow2; lia]. }
  assert (Hpow : 0 < 2 ^ (Z.log2 (v - 1) + 1) <= 2 ^ 30).
  { split; [apply Z.pow_pos_nonneg; lia | apply Z.pow_le_mono_r; lia]. }
  replace (2 ^ (Z.log2 (v - 1) + 1) - 1 + 1) with (2 ^ (Z.log2 (v - 1) + 1)) by lia.
  apply wrap_small. int_range.
Qed.

Example round_up_pow2_1 : round_up_pow2 1 = 1.
Proof. reflexivity. Qed.

Example round_up_pow2_5 : round_up_pow2 5 = 8.
Proof. reflexivity. Qed.

Example round_up_pow2_max : round_up_pow2 (2 ^ 30) = 2 ^ 30.
Proof. reflexivity. Qed.

(** C8. For every [v] with [1 <= v <= 2^30], [round_up_pow2 v] is the least
    power of two greater than or equal to [v]: it is a power of two, it is
    at least [v], and every power of two that is at least [v] is at least
    the result. *)
Theorem round_up_pow2_least v :
  1 <= v <= 2 ^ 30 ->
  is_pow2 (round_up_pow2 v) /\
  v <= round_up_pow2 v /\
  forall k, 0 <= k -> v <= 2 ^ k -> round_up_pow2 v <= 2 ^ k.
Proof.
  intros Hv. destruct (Z.eq_dec v 1) as [-> | Hne].
  - change (round_up_pow2 1) with 1. repeat split.
    + exists 0. split; [lia | reflexivity].
    + lia.
    + intros k Hk _. pose proof (Z.pow_pos_nonneg 2 k ltac:(lia) Hk). lia.
  - rewrite round_up_pow2_log2 by lia.
    pose proof (Z.log2_nonneg (v - 1)) as Hnn.
    pose proof (Z.log2_spec (v - 1) ltac:(lia)) as [Hlo Hhi].
    unfold Z.succ in Hhi. repeat split.
    + exists (Z.log2 (v - 1) + 1). split; [lia | reflexivity].
    + lia.
    + intros k Hk Hle.
      apply Z.pow_le_mono_r; [lia |].
      destruct (Z_lt_dec (Z.log2 (v - 1)) k) as [Hlt | Hge]; [lia |].
      assert (2 ^ k <= 2 ^ Z.log2 (v - 1)) by (apply Z.pow_le_mono_r; lia).
      lia.
Qed.

Lemma round_up_pow2_least_witness :
  1 <= 5 <= 2 ^ 30 /\
  (is_pow2 (round_up_pow2 5) /\
   5 <= round_up_pow2 5 /\
   forall k, 0 <= k -> 5 <= 2 ^ k -> round_up_pow2 5 <= 2 ^ k).
Proof. split; [lia | apply (round_up_pow2_least 5); lia]. Defined.

(** ** [hashmap_hash_index] *)

Lemma is_pow2_pos size : is_pow2 size -> 1 <= size.
Proof.
  intros (k & Hk & ->). pose proof (Z.pow_pos_nonneg 2 k ltac:(lia) Hk). lia.
Qed.

(** The index is a valid subscript of an array of [size] elements as soon
    as [size] is positive. *)
Lemma hashmap_hash_index_bound `{Platform} size k :
  1 <= size <= Int.INT_MAX -> 0 <= hashmap_hash_index size k < size.
Proof.
  intros Hsize. unfold hashmap_hash_index.
  rewrite (wrap_small (size - 1)) by int_range.
  pose proof (land_bound
    (Int.wrap (Z.lxor (hash_loop (Int.wrap 0x811c9dc5) k)
                      (Z.shiftr (hash_loop (Int.wrap 0x811c9dc5) k) 31)
               - Z.shiftr (hash_loop (Int.wrap 0x811c9dc5) k) 31))
    (size - 1) ltac:(lia)).
  lia.
Qed.

Example hash_loop_main :
  @hash_loop signed_char_platform (Int.wrap 0x811c9dc5) "main" = -359603704.
Proof. reflexivity. Qed.

Example hash_index_main :
  @hashmap_hash_index signed_char_platform 8 "main" = 0.
Proof. reflexivity. Qed.

Example hash_index_f :
  @hashmap_hash_index signed_char_platform 4 "f" = 3.
Proof. reflexivity. Qed.

(** C9. For every power-of-two [size] that an [int] holds and every key,
    [hashmap_hash_index size key] lies in the interval [[0, size)]; the
    accumulation and the sign folding wrap around at 32 bits. *)
Theorem hashmap_hash_index_range (P : Platform) (size : Z) (k : string) :
  is_pow2 size -> Int.in_range size -> 0 <= hashmap_hash_index size k < size.
Proof.
  intros Hpow [_ Hmax]. apply hashmap_hash_index_bound.
  split; [apply is_pow2_pos, Hpow | exact Hmax].
Qed.

Lemma hashmap_hash_index_range_witness :
  is_pow2 8 /\ Int.in_range 8 /\
  0 <= @hashmap_hash_index signed_char_platform 8 "main" < 8.
Proof.
  assert (Hpow : is_pow2 8) by (exists 3; split; [lia | reflexivity]).
  assert (Hrange : Int.in_range 8) by int_range.
  split; [exact Hpow | split; [exact Hrange |]].
  exact (hashmap_hash_index_range signed_char_platform 8 "main" Hpow Hrange).
Defined.

(** ** C strings *)

Lemma strcmp_cstr_l a b : strcmp (cstr a) b = strcmp a b.
Proof.
  revert b. induction a as [| x a IH]; intros b; [reflexivity |].
  simpl. destruct (is_nul x) eqn:Hx; [reflexivity |].
  simpl. rewrite Hx. destruct b as [| y b]; [reflexivity |].
  destruct (Ascii.eqb x y); [apply IH | reflexivity].
Qed.

Lemma strcmp_refl a : strcmp a a = 0.
Proof.
  induction a as [| x a IH]; [reflexivity |].
  simpl. destruct (is_nul x) eqn:Hx.
  - apply Ascii.eqb_eq in Hx. subst x. reflexivity.
  - rewrite Ascii.eqb_refl. exact IH.
Qed.

Lemma streq_refl a : streq a a = true.
Proof. unfold streq. rewrite strcmp_refl. reflexivity. Qed.

(** A copied string compares equal to its source. *)
Lemma streq_strcpy a : streq (strcpy a) a = true.
Proof. unfold streq, strcpy. rewrite strcmp_cstr_l, strcmp_refl. reflexivity. Qed.

(** ** Outcomes and arrays *)

Lemma bind_Ret {A B} (a : A) (k : A -> outcome B) : (Ret a ≫= k) = k a.
Proof. reflexivity. Qed.

Lemma array_get_Ret {A} (a : list A) i :
  0 <= i < Z.of_nat (length a) ->
  exists x, a !! Z.to_nat i = Some x /\ array_get a i = Ret x.
Proof.
  intros Hi. unfold array_get.
  destruct (Z.ltb_spec i 0) as [? | _]; [lia |].
  destruct (lookup_lt_is_Some_2 a (Z.to_nat i) ltac:(lia)) as [x Hx].
  exists x. rewrite Hx. split; reflexivity.
Qed.

Lemma array_set_Ret {A} (a : list A) i x :
  0 <= i < Z.of_nat (length a) ->
  array_set a i x = Ret (<[Z.to_nat i := x]> a).
Proof.
  intros Hi. unfold array_set.
  destruct (Z.ltb_spec i 0) as [? | _]; [lia |].
  destruct (Z.leb_spec (Z.of_nat (length a)) i) as [? | _]; [lia |].
  reflexivity.
Qed.

(** A string shorter than the member is copied. *)
Lemma strcpy_member_Ret cap s :
  strlen s < cap -> strcpy_member cap s = Ret (strcpy s).
Proof.
  intros Hs. unfold strcpy_member.
  destruct (Z.ltb_spec (strlen s) cap) as [_ | ?]; [reflexivity | lia].
Qed.

(** An arena with an entry left has room for the next one. *)
Lemma next_entry_Ret {A} cap (arena : list A) :
  Z.of_nat (length arena) < cap -> next_entry cap arena = Ret tt.
Proof.
  intros Hlen. unfold next_entry.
  destruct (Z.ltb_spec (Z.of_nat (length arena)) cap) as [_ | ?]; [reflexivity | lia].
Qed.

(** ** Hashmap *)

Lemma set_last_next_app c node :
  c <> [] -> set_last_next c node = c ++ chain_of node.
Proof.
  induction c as [| cur c IH]; intros Hne; [congruence |].
  destruct c as [| cur' c]; [reflexivity |].
  change (set_last_next (cur :: cur' :: c) node)
    with (cur :: set_last_next (cur' :: c) node).
  rewrite IH by discriminate. reflexivity.
Qed.

Lemma chain_find_app c c' k :
  chain_find (c ++ c') k = if chain_has c k then chain_find c k else chain_find c' k.
Proof.
  induction c as [| cur c IH]; [reflexivity |].
  simpl. destruct (streq (key cur) k); [reflexivity | exact IH].
Qed.

Lemma chain_has_app c c' k : chain_has (c ++ c') k = chain_has c k || chain_has c' k.
Proof. unfold chain_has. apply existsb_app. Qed.

Lemma chain_has_false c k :
  (forall n, n ∈ c -> streq (key n) k = false) -> chain_has c k = false.
Proof.
  induction c as [| cur c IH]; intros Hc; [reflexivity |].
  simpl. rewrite (Hc cur) by (left). simpl. apply IH.
  intros n Hn. apply Hc. right. exact Hn.
Qed.

Section HashmapFacts.
Context `{Platform}.

(** What a successful [hashmap_put] does to a well-formed map: the new
    node goes to the end of the chain of the key's bucket. *)
Lemma hashmap_put_Ret m k v :
  wf_hashmap m ->
  exists c,
    hm_buckets m !! Z.to_nat (hashmap_hash_index (hm_size m) k) = Some c /\
    hashmap_put true (Some m) k v =
      Ret (Some {| hm_size := hm_size m;
                   hm_buckets :=
                     <[Z.to_nat (hashmap_hash_index (hm_size m) k) :=
                         c ++ [{| key := strcpy k; val := v |}]]> (hm_buckets m) |}).
Proof.
  intros [Hsize Hlen].
  pose proof (hashmap_hash_index_bound (hm_size m) k Hsize) as Hidx.
  assert (Hin : 0 <= hashmap_hash_index (hm_size m) k
                < Z.of_nat (length (hm_buckets m))) by lia.
  destruct (array_get_Ret _ _ Hin) as (c & Hc & Hget).
  exists c. split; [exact Hc |].
  unfold hashmap_put. rewrite Hget. simpl.
  rewrite array_set_Ret by lia. simpl.
  destruct c as [| cur c]; [reflexivity |].
  rewrite set_last_next_app by discriminate. reflexivity.
Qed.

Lemma hashmap_put_wf m k v m' :
  wf_hashmap m -> hashmap_put true (Some m) k v = Ret (Some m') -> wf_hashmap m'.
Proof.
  intros Hwf Hput.
  destruct (hashmap_put_Ret m k v Hwf) as (c & _ & Heq).
  rewrite Heq in Hput. injection Hput as <-.
  destruct Hwf as [Hsize Hlen]. split; simpl; [exact Hsize |].
  rewrite length_insert. exact Hlen.
Qed.

Lemma hashmap_get_Ret m k :
  wf_hashmap m ->
  exists c,
    hm_buckets m !! Z.to_nat (hashmap_hash_index (hm_size m) k) = Some c /\
    hashmap_get (Some m) k = Ret (chain_find c k).
Proof.
  intros [Hsize Hlen].
  pose proof (hashmap_hash_index_bound (hm_size m) k Hsize) as Hidx.
  assert (Hin : 0 <= hashmap_hash_index (hm_size m) k
                < Z.of_nat (length (hm_buckets m))) by lia.
  destruct (array_get_Ret _ _ Hin) as (c & Hc & Hget).
  exists c. split; [exact Hc |].
  unfold hashmap_get. rewrite Hget. reflexivity.
Qed.

(** After a put, the lookup of the key scans the old chain of the bucket
    followed by the new node. *)
Lemma hashmap_get_put m k v :
  wf_hashmap m ->
  exists c m',
    hm_buckets m !! Z.to_nat (hashmap_hash_index (hm_size m) k) = Some c /\
    hashmap_put true (Some m) k v = Ret (Some m') /\
    wf_hashmap m' /\
    hm_size m' = hm_size m /\
    hm_buckets m' !! Z.to_nat (hashmap_hash_index (hm_size m) k)
      = Some (c ++ [{| key := strcpy k; val := v |}]) /\
    hashmap_get (Some m') k = Ret (if chain_has c k then chain_find c k else v).
Proof.
  intros Hwf.
  destruct (hashmap_put_Ret m k v Hwf) as (c & Hc & Hput).
  eexists c, _. split; [exact Hc |]. split; [exact Hput |].
  assert (Hwf' := hashmap_put_wf _ _ _ _ Hwf Hput).
  split; [exact Hwf' |]. split; [reflexivity |].
  assert (Hnew : <[Z.to_nat (hashmap_hash_index (hm_size m) k) :=
                     c ++ [{| key := strcpy k; val := v |}]]> (hm_buckets m)
                 !! Z.to_nat (hashmap_hash_index (hm_size m) k)
                 = Some (c ++ [{| key := strcpy k; val := v |}])).
  { apply list_lookup_insert_eq. eapply lookup_lt_Some, Hc. }
  split; [exact Hnew |].
  destruct (hashmap_get_Ret _ k Hwf') as (c' & Hc' & Hget).
  cbn [hm_buckets hm_size] in Hc'. rewrite Hnew in Hc'. injection Hc' as <-.
  rewrite Hget, chain_find_app. simpl. rewrite streq_strcpy. reflexivity.
Qed.

(** A second put of a key does not change what the lookup of the key
    returns: the new node is behind the node of the first put. *)
Lemma hashmap_put_shadowed m k A B :
  wf_hashmap m ->
  (m1 ← hashmap_put true (Some m) k A;
   m2 ← hashmap_put true m1 k B;
   hashmap_get m2 k)
  = (m1 ← hashmap_put true (Some m) k A; hashmap_get m1 k).
Proof.
  intros Hwf.
  destruct (hashmap_get_put m k A Hwf) as (c & m1 & Hc & Hput1 & Hwf1 & Hsz & Hc1 & Hget1).
  destruct (hashmap_get_put m1 k B Hwf1) as (c1 & m2 & Hc1' & Hput2 & _ & _ & _ & Hget2).
  rewrite Hsz, Hc1 in Hc1'. injection Hc1' as <-.
  rewrite Hput1, !bind_Ret, Hput2, bind_Ret, Hget1, Hget2.
  rewrite chain_has_app, chain_find_app. simpl. rewrite streq_strcpy. simpl.
  rewrite orb_true_r. reflexivity.
Qed.

End HashmapFacts.

(** C1 (amended). For every well-formed hashmap that holds no node for the
    key [k], with the allocations of the two puts succeeding: after
    [hashmap_put(map, k, A)] and [hashmap_put(map, k, B)],
    [hashmap_get(map, k)] returns [A]. *)
Theorem hashmap_put_put_get (P : Platform) (m : hashmap_t) (k : string) (A B : ptr) :
  wf_hashmap m -> key_absent m k ->
  (m1 ← hashmap_put true (Some m) k A;
   m2 ← hashmap_put true m1 k B;
   hashmap_get m2 k) = Ret A.
Proof.
  intros Hwf Habs. rewrite hashmap_put_shadowed by exact Hwf.
  destruct (hashmap_get_put m k A Hwf) as (c & m1 & Hc & Hput1 & _ & _ & _ & Hget1).
  rewrite Hput1, bind_Ret, Hget1.
  rewrite chain_has_false; [reflexivity |].
  intros n Hn. apply (Habs c n); [| exact Hn].
  eapply list_elem_of_lookup_2, Hc.
Qed.

Example hashmap_create_4 : hashmap_create true 4 = Some empty_map4.
Proof. reflexivity. Qed.

Lemma hashmap_put_put_get_witness :
  wf_hashmap empty_map4 /\ key_absent empty_map4 "f"%string /\
  (m1 ← @hashmap_put signed_char_platform true (Some empty_map4) "f"%string (Some 1%nat);
   m2 ← @hashmap_put signed_char_platform true m1 "f"%string (Some 2%nat);
   @hashmap_get signed_char_platform m2 "f"%string) = Ret (Some 1%nat).
Proof.
  assert (Hwf : wf_hashmap empty_map4)
    by (split; simpl; int_range).
  assert (Habs : key_absent empty_map4 "f"%string).
  { intros c n Hc Hn. simpl in Hc.
    repeat (apply elem_of_cons in Hc; destruct Hc as [-> | Hc];
            [apply elem_of_nil in Hn; destruct Hn |]).
    apply elem_of_nil in Hc. destruct Hc. }
  split; [exact Hwf | split; [exact Habs |]].
  exact (hashmap_put_put_get signed_char_platform empty_map4 "f"%string
           (Some 1%nat) (Some 2%nat) Hwf Habs).
Defined.

Example map_with_f_put_put_get :
  (m1 ← @hashmap_put signed_char_platform true (Some map_with_f) "f" (Some 1%nat);
   m2 ← @hashmap_put signed_char_platform true m1 "f" (Some 2%nat);
   @hashmap_get signed_char_platform m2 "f") = Ret (Some 7%nat).
Proof. reflexivity. Qed.

(** C1 (as stated) fails on a map that already holds a node for the key:
    the lookup returns the value of that node, not [A]. *)
Lemma hashmap_put_put_get_counterexample :
  ~ (forall (P : Platform) (m : hashmap_t) (k : string) (A B : ptr),
       wf_hashmap m ->
       (m1 ← hashmap_put true (Some m) k A;
        m2 ← hashmap_put true m1 k B;
        hashmap_get m2 k) = Ret A).
Proof.
  intros Hclaim.
  specialize (Hclaim signed_char_platform map_with_f "f"%string (Some 1%nat) (Some 2%nat)).
  assert (Hwf : wf_hashmap map_with_f)
    by (split; simpl; int_range).
  specialize (Hclaim Hwf). vm_compute in Hclaim. discriminate Hclaim.
Qed.



Lemma chain_find_absent c k : chain_has c k = false -> chain_find c k = None.
Proof.
  induction c as [| cur c IH]; [reflexivity |].
  simpl. destruct (streq (key cur) k); [discriminate | exact IH].
Qed.

(** ** [find_type] *)

(** What a successful scan returned: the entry at the index, matched by
    name, or the [base_struct] of a forward-declared typedef matched by
    name. *)
Lemma find_type_from_Some i types name flag j :
  find_type_from i types name flag = Some j ->
  exists n t,
    types !! n = Some t /\ streq (type_name t) name = true /\
    ((base_type t = TYPE_struct /\ flag <> 1 /\ j = (i + n)%nat) \/
     (base_type t <> TYPE_struct /\ flag <> 2 /\
      ((base_type t = TYPE_typedef /\ ty_size t = 0 /\ base_struct t = Some j) \/
       (~ (base_type t = TYPE_typedef /\ ty_size t = 0) /\ j = (i + n)%nat)))).
Proof.
  revert i. induction types as [| t types IH]; intros i Hfind; [discriminate |].
  assert (Hrest : find_type_from (S i) types name flag = Some j ->
                  exists n t0, (t :: types) !! n = Some t0 /\ streq (type_name t0) name = true /\
    ((base_type t0 = TYPE_struct /\ flag <> 1 /\ j = (i + n)%nat) \/
     (base_type t0 <> TYPE_struct /\ flag <> 2 /\
      ((base_type t0 = TYPE_typedef /\ ty_size t0 = 0 /\ base_struct t0 = Some j) \/
       (~ (base_type t0 = TYPE_typedef /\ ty_size t0 = 0) /\ j = (i + n)%nat))))).
  { intros Hr. destruct (IH _ Hr) as (n & t0 & Hn & Hname & Hcases).
    exists (S n), t0. split; [exact Hn |]. split; [exact Hname |].
    replace (i + S n)%nat with (S i + n)%nat by lia. exact Hcases. }
  simpl in Hfind.
  destruct (bool_decide_reflect (base_type t = TYPE_struct)) as [Hs | Hs].
  - destruct (Z.eqb_spec flag 1) as [Hf | Hf]; [exact (Hrest Hfind) |].
    destruct (streq (type_name t) name) eqn:Hname; [| exact (Hrest Hfind)].
    injection Hfind as <-. exists 0%nat, t.
    split; [reflexivity |]. split; [exact Hname |].
    left. split; [exact Hs |]. split; [exact Hf | lia].
  - destruct (Z.eqb_spec flag 2) as [Hf | Hf]; [exact (Hrest Hfind) |].
    destruct (streq (type_name t) name) eqn:Hname; [| exact (Hrest Hfind)].
    exists 0%nat, t. split; [reflexivity |]. split; [exact Hname |].
    right. split; [exact Hs |]. split; [exact Hf |].
    destruct (bool_decide_reflect (base_type t = TYPE_typedef)) as [Ht | Ht];
      destruct (Z.eqb_spec (ty_size t) 0) as [Hz | Hz]; simpl in Hfind.
    + left. split; [exact Ht |]. split; [exact Hz | exact Hfind].
    + right. injection Hfind as <-. split; [tauto | lia].
    + right. injection Hfind as <-. split; [tauto | lia].
    + right. injection Hfind as <-. split; [tauto | lia].
Qed.

Example find_type_T_0 : find_type fwd_types "T"%string 0 = Some 0%nat.
Proof. reflexivity. Qed.

Example find_type_S_1 : find_type fwd_types "S"%string 1 = None.
Proof. reflexivity. Qed.

Example find_type_S_2 : find_type fwd_types "S"%string 2 = Some 0%nat.
Proof. reflexivity. Qed.

(** C2 (amended). [find_type(name, 1)] never returns a struct-tag entry by
    matching its name: when the type returned is a struct, it is the
    [base_struct] of a forward-declared typedef (base type typedef, size
    0) of that name.  [find_type(name, 2)] only returns entries of [TYPES]
    whose base type is struct, and whose name is [name]. *)
Theorem find_type_flags (TYPES : list type_t) (name : string) :
  (forall j t,
     find_type TYPES name 1 = Some j -> TYPES !! j = Some t ->
     base_type t = TYPE_struct ->
     exists n fwd,
       TYPES !! n = Some fwd /\ streq (type_name fwd) name = true /\
       base_type fwd = TYPE_typedef /\ ty_size fwd = 0 /\
       base_struct fwd = Some j) /\
  (forall j,
     find_type TYPES name 2 = Some j ->
     exists t,
       TYPES !! j = Some t /\ base_type t = TYPE_struct /\
       streq (type_name t) name = true).
Proof.
  split.
  - intros j t Hfind Hj Hstruct.
    destruct (find_type_from_Some _ _ _ _ _ Hfind) as (n & fwd & Hn & Hname & Hcases).
    destruct Hcases as [(_ & Hflag & _) | (Hns & _ & Hcases)]; [lia |].
    destruct Hcases as [(Ht & Hz & Hbase) | (_ & ->)].
    + exists n, fwd. repeat split; assumption.
    + simpl in Hj. rewrite Hn in Hj. injection Hj as ->. contradiction.
  - intros j Hfind.
    destruct (find_type_from_Some _ _ _ _ _ Hfind) as (n & t & Hn & Hname & Hcases).
    destruct Hcases as [(Hs & _ & ->) | (_ & Hflag & _)]; [| lia].
    exists t. repeat split; assumption.
Qed.

Lemma find_type_flags_witness :
  find_type fwd_types "T"%string 1 = Some 0%nat /\
  find_type fwd_types "S"%string 2 = Some 0%nat /\
  (exists n fwd,
     fwd_types !! n = Some fwd /\ streq (type_name fwd) "T"%string = true /\
     base_type fwd = TYPE_typedef /\ ty_size fwd = 0 /\
     base_struct fwd = Some 0%nat) /\
  (exists t,
     fwd_types !! 0%nat = Some t /\ base_type t = TYPE_struct /\
     streq (type_name t) "S"%string = true).
Proof.
  split; [reflexivity |]. split; [reflexivity |]. split.
  - exact (proj1 (find_type_flags fwd_types "T"%string) 0%nat
             {| type_name := "S"%string; base_type := TYPE_struct; ty_size := 8;
                base_struct := None |}
             eq_refl eq_refl eq_refl).
  - exact (proj2 (find_type_flags fwd_types "S"%string) 0%nat eq_refl).
Defined.

Example find_type_T_1 : find_type fwd_types "T" 1 = Some 0%nat.
Proof. reflexivity. Qed.

(** C2 (as stated) fails for a forward-declared typedef: with flag 1 the
    lookup of [T] returns the entry of [struct S]. *)
Lemma find_type_flags_counterexample :
  ~ (forall (TYPES : list type_t) (name : string),
       (forall j t, find_type TYPES name 1 = Some j -> TYPES !! j = Some t ->
                    base_type t <> TYPE_struct) /\
       (forall j t, find_type TYPES name 2 = Some j -> TYPES !! j = Some t ->
                    base_type t = TYPE_struct)).
Proof.
  intros Hclaim.
  destruct (Hclaim fwd_types "T"%string) as [Hflag1 _].
  apply (Hflag1 0%nat
           {| type_name := "S"%string; base_type := TYPE_struct; ty_size := 8;
              base_struct := None |});
    reflexivity.
Qed.

(** ** Aliases *)

Lemma head_char_cstr b : head_char (cstr b) = head_char b.
Proof.
  destruct b as [| y b]; [reflexivity |].
  simpl. destruct (is_nul y) eqn:Hy; [| reflexivity].
  apply Ascii.eqb_eq in Hy. subst y. reflexivity.
Qed.

Lemma strcmp_cstr_r a b : strcmp a (cstr b) = strcmp a b.
Proof.
  revert b. induction a as [| x a IH]; intros b.
  - simpl. rewrite head_char_cstr. reflexivity.
  - simpl. destruct (is_nul x) eqn:Hx; [rewrite head_char_cstr; reflexivity |].
    destruct b as [| y b]; [reflexivity |].
    simpl. destruct (is_nul y) eqn:Hy.
    + apply Ascii.eqb_eq in Hy. subst y.
      destruct (Ascii.eqb_spec x Ascii.zero) as [-> | _]; [discriminate Hx |].
      change (uchar Ascii.zero) with 0. lia.
    + destruct (Ascii.eqb x y); [apply IH | reflexivity].
Qed.

(** A name compares equal to its stored copy. *)
Lemma streq_strcpy_r a : streq a (strcpy a) = true.
Proof. unfold streq, strcpy. rewrite strcmp_cstr_r, strcmp_refl. reflexivity. Qed.

Lemma find_alias_app l l' a :
  find_alias (l ++ l') a =
    match find_alias l a with
    | Some v => Some v
    | None => find_alias l' a
    end.
Proof.
  induction l as [| e l IH]; [reflexivity |].
  simpl. destruct (negb (disabled e) && streq a (alias e)); [reflexivity | exact IH].
Qed.

(** The lookup fails exactly when no enabled entry has the name. *)
Lemma find_alias_None l a : enabled_matches l a = 0%nat -> find_alias l a = None.
Proof.
  unfold enabled_matches. induction l as [| e l IH]; [reflexivity |].
  simpl. unfold alias_hit at 1.
  destruct (negb (disabled e) && streq a (alias e)); [discriminate | exact IH].
Qed.

(** [remove_alias] disables the first enabled entry of the name: one hit
    fewer remains. *)
Lemma remove_alias_matches l a n :
  enabled_matches l a = S n ->
  (remove_alias l a).1 = true /\ enabled_matches (remove_alias l a).2 a = n.
Proof.
  unfold enabled_matches. revert n. induction l as [| e l IH]; intros n; [discriminate |].
  simpl. unfold alias_hit at 1.
  destruct (negb (disabled e) && streq a (alias e)) eqn:Hhit.
  - simpl. intros [= Hn]. split; [reflexivity | exact Hn].
  - intros Hn. destruct (IH n Hn) as [Hr Hm].
    destruct (remove_alias l a) as [r rest]. simpl in *.
    split; [exact Hr |]. unfold alias_hit at 1. rewrite Hhit. exact Hm.
Qed.

Example find_alias_once : find_alias once_defined "X"%string = Some "a"%string.
Proof. reflexivity. Qed.

(** [remove_alias] disables an entry; it removes none. *)
Lemma remove_alias_length l a : length (remove_alias l a).2 = length l.
Proof.
  induction l as [| e l IH]; [reflexivity |].
  simpl. destruct (negb (disabled e) && streq a (alias e)); [reflexivity |].
  destruct (remove_alias l a) as [r rest]. simpl in *. now rewrite IH.
Qed.

(** [add_alias] with room in the table and in the members: the entry with
    the copies of both strings is appended. *)
Lemma add_alias_Ret (L : Limits) ALIASES a v :
  Z.of_nat (length ALIASES) < MAX_ALIASES ->
  strlen a < MAX_VAR_LEN -> strlen v < MAX_VAR_LEN ->
  add_alias ALIASES a v
    = Ret (ALIASES ++ [{| alias := strcpy a; value := strcpy v; disabled := false |}]).
Proof.
  intros Hlen Ha Hv. unfold add_alias.
  rewrite (next_entry_Ret _ _ Hlen), bind_Ret.
  rewrite (strcpy_member_Ret _ _ Ha), bind_Ret.
  rewrite (strcpy_member_Ret _ _ Hv), bind_Ret. reflexivity.
Qed.

(** C7 (amended). For every alias name [X] with exactly one enabled entry
    in [ALIASES]: [remove_alias(X)] returns true and a following
    [find_alias(X)] returns null.  When [ALIASES] has an entry left
    (fewer than [MAX_ALIASES] are in use) and [X] and [v] fit the members
    of an entry (fewer than [MAX_VAR_LEN] characters each), a subsequent
    [add_alias(X, v)] returns, and [find_alias(X)] then returns the stored
    copy of [v]. *)
Theorem remove_add_find_alias (L : Limits) (ALIASES : list alias_t)
    (X v : string) :
  enabled_matches ALIASES X = 1%nat ->
  Z.of_nat (length ALIASES) < MAX_ALIASES ->
  strlen X < MAX_VAR_LEN -> strlen v < MAX_VAR_LEN ->
  (remove_alias ALIASES X).1 = true /\
  find_alias (remove_alias ALIASES X).2 X = None /\
  exists ALIASES',
    add_alias (remove_alias ALIASES X).2 X v = Ret ALIASES' /\
    find_alias ALIASES' X = Some (strcpy v).
Proof.
  intros Hone Hlen HX Hv. destruct (remove_alias_matches _ _ _ Hone) as [Hr Hm].
  pose proof (find_alias_None _ _ Hm) as Hnone.
  split; [exact Hr |]. split; [exact Hnone |].
  eexists. split.
  - apply add_alias_Ret; [rewrite remove_alias_length; exact Hlen | exact HX | exact Hv].
  - rewrite find_alias_app, Hnone. simpl.
    rewrite streq_strcpy_r. reflexivity.
Qed.

Lemma remove_add_find_alias_witness :
  enabled_matches once_defined "X"%string = 1%nat /\
  Z.of_nat (length once_defined) < @MAX_ALIASES example_limits /\
  strlen "X"%string < @MAX_VAR_LEN example_limits /\
  strlen "b"%string < @MAX_VAR_LEN example_limits /\
  (remove_alias once_defined "X"%string).1 = true /\
  find_alias (remove_alias once_defined "X"%string).2 "X"%string = None /\
  exists ALIASES',
    @add_alias example_limits (remove_alias once_defined "X"%string).2 "X"%string "b"%string
      = Ret ALIASES' /\
    find_alias ALIASES' "X"%string = Some (strcpy "b"%string).
Proof.
  split; [reflexivity |]. split; [reflexivity |].
  split; [reflexivity |]. split; [reflexivity |].
  exact (remove_add_find_alias example_limits once_defined "X"%string "b"%string
           eq_refl eq_refl eq_refl eq_refl).
Defined.

Example twice_defined_remove_find :
  find_alias (remove_alias twice_defined "X").2 "X" = Some "b"%string.
Proof. reflexivity. Qed.

(** C7 (as stated) fails when the name was defined twice, also with room
    in the table and in the members: [remove_alias] disables the first
    entry only, and the lookup then finds the second. *)
Lemma remove_add_find_alias_counterexample :
  ~ (forall (L : Limits) (ALIASES : list alias_t) (X v : string),
       Z.of_nat (length ALIASES) < MAX_ALIASES ->
       strlen X < MAX_VAR_LEN -> strlen v < MAX_VAR_LEN ->
       find_alias ALIASES X <> None ->
       find_alias (remove_alias ALIASES X).2 X = None /\
       exists ALIASES',
         add_alias (remove_alias ALIASES X).2 X v = Ret ALIASES' /\
         find_alias ALIASES' X = Some (strcpy v)).
Proof.
  intros Hclaim.
  destruct (Hclaim example_limits twice_defined "X"%string "c"%string)
    as [Hnone _]; [reflexivity | reflexivity | reflexivity | discriminate |].
  vm_compute in Hnone. discriminate Hnone.
Qed.

(** ** [find_macro_param_src_idx] *)

(** With a block that is not a macro frame the result is 0. *)
Lemma find_macro_param_src_idx_no_macro MACROS BLOCKS name p blk :
  BLOCKS !! p = Some blk -> macro blk = None ->
  find_macro_param_src_idx MACROS BLOCKS name (Some p) = Ret 0.
Proof.
  intros Hp Hm. unfold find_macro_param_src_idx. simpl. rewrite Hp.
  rewrite bind_Ret. simpl. rewrite Hm. reflexivity.
Qed.

(** In a macro frame the result is [macro->params[i]] for the first
    parameter [i] of the name. *)
Lemma find_macro_param_src_idx_param MACROS BLOCKS name p blk mi m i src :
  BLOCKS !! p = Some blk -> macro blk = Some mi -> MACROS !! mi = Some m ->
  scan_vars (macro_param_defs m) name = Some i -> params m !! i = Some src ->
  find_macro_param_src_idx MACROS BLOCKS name (Some p) = Ret src.
Proof.
  intros Hp Hmi Hm Hscan Hsrc. unfold find_macro_param_src_idx. simpl. rewrite Hp.
  rewrite bind_Ret. simpl. rewrite Hmi. simpl. rewrite Hm, bind_Ret, Hscan.
  unfold array_get. destruct (Z.ltb_spec (Z.of_nat i) 0) as [? | _]; [lia |].
  rewrite Nat2Z.id, Hsrc. reflexivity.
Qed.

(** C3 (the code at a null [parent]).  The initialiser
    [macro_t *macro = parent->macro] reads through [parent] before the
    test [if (!parent)]: with a null [parent] the call is a null
    dereference, and the diagnostic of [error] is not reached. *)
Theorem find_macro_param_src_idx_null (MACROS : list macro_t)
    (BLOCKS : list block_t) (name : string) :
  find_macro_param_src_idx MACROS BLOCKS name None = Fault NullDeref /\
  find_macro_param_src_idx MACROS BLOCKS name None
    <> error "The macro expansion is not supported in the global scope".
Proof. split; [reflexivity | discriminate]. Qed.

(** ** [bb_connect] *)

Lemma first_empty_slot_full slots i :
  Forall (fun c => bb c <> None) slots ->
  first_empty_slot slots i = Fault (OutOfBounds (i + Z.of_nat (length slots))).
Proof.
  intros Hfull. revert i. induction Hfull as [| c slots Hc _ IH]; intros i.
  - simpl. rewrite Z.add_0_r. reflexivity.
  - simpl. destruct (bb c); [| congruence].
    rewrite IH. do 2 f_equal. lia.
Qed.

(** With a free slot the scan stops at the first one, inside the array. *)
Lemma first_empty_slot_Ret slots i :
  (occupied slots < length slots)%nat ->
  exists n c,
    first_empty_slot slots i = Ret (i + Z.of_nat n) /\
    slots !! n = Some c /\ bb c = None.
Proof.
  unfold occupied. revert i. induction slots as [| c slots IH]; intros i Hocc.
  - simpl in Hocc. lia.
  - simpl. destruct (bb c) as [q |] eqn:Hc.
    + rewrite filter_cons_True in Hocc by congruence. simpl in Hocc.
      destruct (IH (i + 1) ltac:(lia)) as (n & c' & Hscan & Hn & Hc').
      exists (S n), c'. rewrite Hscan. split; [f_equal; lia |].
      split; [exact Hn | exact Hc'].
    + exists 0%nat, c. rewrite Z.add_0_r. repeat split. exact Hc.
Qed.

Lemma filter_none {A} (P : A -> Prop) `{forall x, Decision (P x)} (l : list A) :
  (forall x, x ∈ l -> ~ P x) -> filter P l = [].
Proof.
  induction l as [| x l IH]; intros Hl; [reflexivity |].
  rewrite filter_cons_False by (apply Hl; left).
  apply IH. intros y Hy. apply Hl. right. exact Hy.
Qed.

(** Writing the edge into a slot of an array without an edge from [p]
    leaves exactly one slot with that edge. *)
Lemma edge_count_insert slots n p k :
  (forall c, c ∈ slots -> bb c <> Some p) -> (n < length slots)%nat ->
  edge_count (<[n := {| bb := Some p; type := k |}]> slots) p k = 1%nat.
Proof.
  intros Hnone Hn. unfold edge_count.
  rewrite insert_take_drop by exact Hn.
  rewrite filter_app, filter_cons_True by reflexivity.
  rewrite !filter_none; [reflexivity | |].
  - intros c Hc ->. apply (Hnone {| bb := Some p; type := k |}); [| reflexivity].
    eapply subseteq_drop, Hc.
  - intros c Hc ->. apply (Hnone {| bb := Some p; type := k |}); [| reflexivity].
    eapply subseteq_take, Hc.
Qed.

Lemma successor_set_successor b k x : successor (set_successor b k x) k = x.
Proof. destruct k; reflexivity. Qed.

Lemma prev_set_successor b k x : prev (set_successor b k x) = prev b.
Proof. destruct k; reflexivity. Qed.

Example bb_connect_then :
  exists h,
    bb_connect {[ 0%nat := fresh_bb; 1%nat := fresh_bb ]} (Some 0%nat) (Some 1%nat) THEN
      = Ret h /\
    (then_ <$> h !! 0%nat) = Some (Some 1%nat) /\
    ((fun b => prev b !! 0%nat) <$> h !! 1%nat)
      = Some (Some {| bb := Some 0%nat; type := THEN |}).
Proof. eexists. split; [reflexivity |]. split; reflexivity. Qed.

(** C4. For basic blocks [p] and [s] and an edge kind [k]: if at most
    [MAX_BB_PRED - 1] of the predecessor slots of [s] are occupied and none
    holds an edge from [p], then [bb_connect(p, s, k)] returns, and
    afterwards [s.prev] has exactly one slot equal to [(p, k)] and the
    successor member of [p] that [k] selects is [s]. *)
Theorem bb_connect_edge (h : bb_heap) (p s : nat) (k : bb_connection_type_t)
    (pb sb : basic_block_t) :
  h !! p = Some pb -> h !! s = Some sb ->
  length (prev sb) = Z.to_nat MAX_BB_PRED ->
  (occupied (prev sb) <= Z.to_nat MAX_BB_PRED - 1)%nat ->
  (forall c, c ∈ prev sb -> bb c <> Some p) ->
  exists h' pb' sb',
    bb_connect h (Some p) (Some s) k = Ret h' /\
    h' !! p = Some pb' /\ h' !! s = Some sb' /\
    edge_count (prev sb') p k = 1%nat /\
    successor pb' k = Some s.
Proof.
  intros Hp Hs Hlen Hocc Hnone.
  assert (Hsix : Z.to_nat MAX_BB_PRED = 6%nat) by reflexivity.
  destruct (first_empty_slot_Ret (prev sb) 0 ltac:(lia)) as (n & c & Hscan & Hn & Hc).
  pose proof (lookup_lt_Some _ _ _ Hn) as Hlt.
  rewrite Z.add_0_l in Hscan.
  unfold bb_connect, load. rewrite Hs, bind_Ret, Hscan, bind_Ret.
  destruct (Z.gtb_spec (Z.of_nat n) (MAX_BB_PRED - 1)) as [Hbig | _];
    [unfold MAX_BB_PRED in Hbig; lia |].
  rewrite array_set_Ret by lia. rewrite bind_Ret, Nat2Z.id.
  pose proof (edge_count_insert (prev sb) n p k Hnone Hlt) as Hcount.
  destruct (decide (p = s)) as [-> | Hne].
  - rewrite lookup_insert_eq, bind_Ret.
    eexists _, _, _. split; [reflexivity |].
    split; [apply lookup_insert_eq |]. split; [apply lookup_insert_eq |].
    split; [| apply successor_set_successor].
    rewrite prev_set_successor. exact Hcount.
  - rewrite lookup_insert_ne by congruence. rewrite Hp, bind_Ret.
    eexists _, _, _. split; [reflexivity |].
    split; [apply lookup_insert_eq |].
    split; [rewrite lookup_insert_ne by exact Hne; apply lookup_insert_eq |].
    split; [exact Hcount | apply successor_set_successor].
Qed.

Lemma bb_connect_edge_witness :
  exists h' pb' sb',
    bb_connect {[ 0%nat := fresh_bb; 1%nat := fresh_bb ]} (Some 0%nat) (Some 1%nat) ELSE
      = Ret h' /\
    h' !! 0%nat = Some pb' /\ h' !! 1%nat = Some sb' /\
    edge_count (prev sb') 0 ELSE = 1%nat /\
    successor pb' ELSE = Some 1%nat.
Proof.
  apply (bb_connect_edge {[ 0%nat := fresh_bb; 1%nat := fresh_bb ]} 0 1 ELSE
           fresh_bb fresh_bb).
  - reflexivity.
  - reflexivity.
  - reflexivity.
  - vm_compute. lia.
  - intros c Hc. apply elem_of_replicate in Hc. destruct Hc as [-> _]. discriminate.
Defined.

(** C5 (the code on a block whose slots are all occupied).  The loop
    [while (succ->prev[i].bb) i++] has no bound: it reads the element
    [prev[MAX_BB_PRED]] behind the array before the test
    [i > MAX_BB_PRED - 1] is reached, so the call is an out-of-bounds read
    and not the abort with the diagnostic. *)
Theorem bb_connect_full (h : bb_heap) (p s : nat) (k : bb_connection_type_t)
    (sb : basic_block_t) :
  h !! s = Some sb ->
  length (prev sb) = Z.to_nat MAX_BB_PRED ->
  Forall (fun c => bb c <> None) (prev sb) ->
  bb_connect h (Some p) (Some s) k = Fault (OutOfBounds MAX_BB_PRED).
Proof.
  intros Hs Hlen Hfull. unfold bb_connect, load. rewrite Hs, bind_Ret.
  rewrite (first_empty_slot_full _ 0 Hfull), Hlen. reflexivity.
Qed.

Lemma bb_connect_full_witness :
  bb_connect {[ 0%nat := fresh_bb; 1%nat := full_bb ]} (Some 0%nat) (Some 1%nat) NEXT
    = Fault (OutOfBounds MAX_BB_PRED).
Proof.
  apply (bb_connect_full {[ 0%nat := fresh_bb; 1%nat := full_bb ]} 0 1 NEXT full_bb).
  - reflexivity.
  - reflexivity.
  - repeat constructor; discriminate.
Defined.

(** ** [find_var] *)

Lemma scan_vars_from_shift i vars name :
  scan_vars_from i vars name = (fun n => (i + n)%nat) <$> scan_vars_from 0 vars name.
Proof.
  revert i. induction vars as [| v vars IH]; intros i; [reflexivity |].
  simpl. destruct (streq (var_name v) name).
  - simpl. f_equal. lia.
  - rewrite (IH (S i)), (IH 1%nat).
    destruct (scan_vars_from 0 vars name); simpl; [f_equal; lia | reflexivity].
Qed.

(** The scan of an array of variables finds the first declaration of the
    name among the declarations of the array. *)
Lemma first_named_imap (R : nat -> var_ref) vars token rest :
  first_named token (imap (fun i v => (R i, v)) vars ++ rest) =
    match scan_vars vars token with
    | Some i => Some (R i)
    | None => first_named token rest
    end.
Proof.
  unfold scan_vars, first_named. revert R.
  induction vars as [| v vars IH]; intros R; [reflexivity |].
  simpl. destruct (streq (var_name v) token); [reflexivity |].
  rewrite (scan_vars_from_shift 1).
  change (imap ((fun i v0 => (R i, v0)) ∘ S) vars)
    with (imap (fun i v0 => (R (S i), v0)) vars).
  rewrite (IH (fun i => R (S i))).
  destruct (scan_vars_from 0 vars token); reflexivity.
Qed.

Lemma first_named_local_decls BLOCKS b blk token rest :
  BLOCKS !! b = Some blk ->
  first_named token (local_decls BLOCKS b ++ rest) =
    match scan_vars (locals blk) token with
    | Some i => Some (LocalRef b i)
    | None => first_named token rest
    end.
Proof.
  intros Hb. unfold local_decls. rewrite Hb. apply first_named_imap.
Qed.

(** The walk along the parent pointers finds the first declaration of the
    name in the blocks of the chain, provided the fuel covers the chain. *)
Lemma find_in_blocks_chain BLOCKS token block chain :
  scope_chain BLOCKS block chain ->
  forall fuel rest, (length chain <= fuel)%nat ->
    (found ← find_in_blocks fuel BLOCKS token block;
     Ret (match found with
          | Some v => Some v
          | None => first_named token rest
          end))
    = Ret (first_named token ((chain ≫= local_decls BLOCKS) ++ rest)).
Proof.
  induction 1 as [| b blk chain Hb _ IH]; intros fuel rest Hfuel.
  - destruct fuel; reflexivity.
  - destruct fuel as [| fuel]; [simpl in Hfuel; lia |].
    simpl. rewrite Hb, bind_Ret.
    change ((b :: chain) ≫= local_decls BLOCKS)
      with (local_decls BLOCKS b ++ (chain ≫= local_decls BLOCKS)).
    rewrite <- app_assoc, (first_named_local_decls _ _ _ _ _ Hb).
    destruct (scan_vars (locals blk) token) as [i |]; [reflexivity |].
    apply IH. simpl in Hfuel. lia.
Qed.

Lemma bind_Ret_inv {A B} (m : outcome A) (g : A -> B) (r : B) :
  (x ← m; Ret (g x)) = Ret r -> exists a, m = Ret a /\ g a = r.
Proof.
  destruct m as [a | | |]; try discriminate.
  rewrite bind_Ret. intros [= <-]. exists a. split; reflexivity.
Qed.

Example find_var_x_nested :
  find_var 3 one_func nested_blocks "x"%string (Some 2%nat) = Ret (Some (LocalRef 2 1)).
Proof. reflexivity. Qed.

Example find_var_x_outer :
  find_var 3 one_func nested_blocks "x"%string (Some 1%nat) = Ret (Some (LocalRef 0 0)).
Proof. reflexivity. Qed.

Example find_var_n_param :
  find_var 3 one_func nested_blocks "n"%string (Some 2%nat) = Ret (Some (ParamRef 0 0)).
Proof. reflexivity. Qed.

(** C6. For every token and block whose scope chain ends: with fuel for
    the chain, [find_var] returns the first declaration of the token in
    the search order: locals of the innermost block first, then outwards
    through the parent blocks, then the parameters of the function of the
    block, and the locals of the global block (the head of [BLOCKS]) last.
    Hence a match among the locals and parameters is returned without the
    global block deciding, and a local of the block itself shadows a
    global of the same name. *)
Theorem find_var_search_order (fuel : nat) (funcs : gmap nat func_t)
    (BLOCKS : list block_t) (token : string) (b : nat) (blk : block_t)
    (chain : list nat) :
  BLOCKS !! b = Some blk ->
  scope_chain BLOCKS (Some b) chain ->
  (length chain <= fuel)%nat ->
  (forall l, func blk = Some l -> is_Some (funcs !! l)) ->
  find_var fuel funcs BLOCKS token (Some b)
    = Ret (first_named token (search_order funcs BLOCKS chain (func blk))) /\
  (forall v, find_local_var fuel funcs BLOCKS token (Some b) = Ret (Some v) ->
             find_var fuel funcs BLOCKS token (Some b) = Ret (Some v)) /\
  (forall i, scan_vars (locals blk) token = Some i ->
             find_var fuel funcs BLOCKS token (Some b) = Ret (Some (LocalRef b i))).
Proof.
  intros Hb Hchain Hfuel Hfn.
  assert (Hglobal : exists g, BLOCKS !! 0%nat = Some g /\
                              find_global_var BLOCKS token
                              = Ret (first_named token (local_decls BLOCKS 0))).
  { destruct BLOCKS as [| g BLOCKS']; [rewrite lookup_nil in Hb; discriminate |].
    exists g. split; [reflexivity |].
    unfold find_global_var. simpl.
    rewrite <- (app_nil_r (local_decls (g :: BLOCKS') 0)).
    rewrite (first_named_local_decls (g :: BLOCKS') 0 g token [] eq_refl).
    destruct (scan_vars (locals g) token); reflexivity. }
  destruct Hglobal as (g & Hg & Hglob).
  assert (Horder : find_var fuel funcs BLOCKS token (Some b)
    = Ret (first_named token (search_order funcs BLOCKS chain (func blk)))).
  { unfold search_order.
    pose proof (find_in_blocks_chain BLOCKS token (Some b) chain Hchain fuel
                  (param_decls funcs (func blk) ++ local_decls BLOCKS 0) Hfuel) as Hwalk.
    apply bind_Ret_inv in Hwalk. destruct Hwalk as (found & Hfound & Hres).
    rewrite <- Hres. unfold find_var, find_local_var. simpl.
    rewrite Hb, bind_Ret, Hfound, bind_Ret.
    destruct found as [v |]; [reflexivity |].
    unfold param_decls. destruct (func blk) as [l |] eqn:Hl.
    - destruct (Hfn l eq_refl) as [f Hf]. simpl. rewrite Hf, !bind_Ret.
      rewrite first_named_imap.
      destruct (scan_vars (param_defs f) token); [reflexivity | exact Hglob].
    - rewrite bind_Ret. exact Hglob. }
  split; [exact Horder |]. split.
  - intros v Hlocal. unfold find_var. rewrite Hlocal. reflexivity.
  - intros i Hi. rewrite Horder. unfold search_order.
    inversion Hchain as [| b' blk' rest Hb' Hrest]; subst.
    change ((b :: rest) ≫= local_decls BLOCKS)
      with (local_decls BLOCKS b ++ (rest ≫= local_decls BLOCKS)).
    rewrite <- app_assoc, (first_named_local_decls _ _ _ _ _ Hb), Hi. reflexivity.
Qed.

Lemma find_var_search_order_witness :
  find_var 3 one_func nested_blocks "x"%string (Some 2%nat)
    = Ret (first_named "x"%string (search_order one_func nested_blocks [2; 1]%nat (Some 0%nat))) /\
  (forall v, find_local_var 3 one_func nested_blocks "x"%string (Some 2%nat) = Ret (Some v) ->
             find_var 3 one_func nested_blocks "x"%string (Some 2%nat) = Ret (Some v)) /\
  (forall i, scan_vars [int_var "b"%string; int_var "x"%string] "x"%string = Some i ->
             find_var 3 one_func nested_blocks "x"%string (Some 2%nat)
             = Ret (Some (LocalRef 2 i))).
Proof.
  apply (find_var_search_order 3 one_func nested_blocks "x"%string 2
           {| parent := Some 1%nat; func := Some 0%nat; macro := None;
              locals := [int_var "b"%string; int_var "x"%string] |} [2; 1]%nat).
  - reflexivity.
  - eapply scope_chain_step; [reflexivity |].
    eapply scope_chain_step; [reflexivity |].
    apply scope_chain_end.
  - simpl. lia.
  - intros l [= <-]. exists {| return_def := int_var "f"%string; param_defs := [int_var "n"%string];
                             stack_size := 4 |}.
    apply lookup_singleton_eq.
Defined.

(** ** [add_func] *)

Section FuncsFacts.
Context `{Platform} `{Limits}.

Lemma hashmap_contains_registered map name l :
  hashmap_get map name = Ret (Some l) -> hashmap_contains map name = Ret true.
Proof.
  intros Hget. unfold hashmap_contains. rewrite Hget, bind_Ret. reflexivity.
Qed.

(** On a registered name [add_func] takes the branch of the lookup and
    stores the initial stack size in the function found. *)
Lemma add_func_registered_eq fn_mem node_mem st name l f :
  hashmap_get (FUNCS_MAP st) name = Ret (Some l) ->
  func_heap st !! l = Some f ->
  add_func fn_mem node_mem st name
    = Ret (Some l, {| FUNCS_MAP := FUNCS_MAP st;
                      func_heap := <[l := set_stack_size f 4]> (func_heap st) |}).
Proof.
  intros Hget Hl. unfold add_func.
  rewrite (hashmap_contains_registered _ _ _ Hget), bind_Ret, Hget, bind_Ret.
  unfold start_stack, load. rewrite Hl, bind_Ret. reflexivity.
Qed.

End FuncsFacts.

Example hash_index_main_4 :
  @hashmap_hash_index signed_char_platform 4 "main"%string = 0.
Proof. reflexivity. Qed.

(** C10. For every name registered in [FUNCS_MAP], a call of [add_func]
    allocates nothing and puts no node into the map, whatever the
    allocator would answer: it returns the registered function, the map is
    unchanged, the heap of functions has the same locations, every other
    function is unchanged, and the function itself differs only in its
    [stack_size], which is 4. *)
Theorem add_func_registered (P : Platform) (L : Limits)
    (fn_mem : option func_t) (node_mem : bool) (st : funcs_state)
    (name : string) (l : nat) (f : func_t) :
  hashmap_get (FUNCS_MAP st) name = Ret (Some l) ->
  func_heap st !! l = Some f ->
  exists st' f',
    add_func fn_mem node_mem st name = Ret (Some l, st') /\
    FUNCS_MAP st' = FUNCS_MAP st /\
    dom (func_heap st') = dom (func_heap st) /\
    (forall l', l' <> l -> func_heap st' !! l' = func_heap st !! l') /\
    func_heap st' !! l = Some f' /\
    stack_size f' = 4 /\
    return_def f' = return_def f /\
    param_defs f' = param_defs f.
Proof.
  intros Hget Hl.
  eexists _, (set_stack_size f 4).
  split; [apply (add_func_registered_eq fn_mem node_mem st name l f Hget Hl) |].
  simpl. split; [reflexivity |]. split.
  - apply dom_insert_lookup_L. exists f. exact Hl.
  - split; [intros l' Hne; apply lookup_insert_ne; congruence |].
    split; [apply lookup_insert_eq |]. repeat split.
Qed.

Lemma add_func_registered_witness :
  exists st' f',
    @add_func signed_char_platform example_limits None false main_registered "main"
      = Ret (Some 0%nat, st') /\
    FUNCS_MAP st' = FUNCS_MAP main_registered /\
    dom (func_heap st') = dom (func_heap main_registered) /\
    (forall l', l' <> 0%nat ->
                func_heap st' !! l' = func_heap main_registered !! l') /\
    func_heap st' !! 0%nat = Some f' /\
    stack_size f' = 4 /\
    return_def f' = int_var "main"%string /\
    param_defs f' = [int_var "argc"%string].
Proof.
  apply (add_func_registered signed_char_platform example_limits None false
           main_registered "main"%string 0
           {| return_def := int_var "main"%string; param_defs := [int_var "argc"%string];
              stack_size := 20 |}).
  - reflexivity.
  - apply lookup_singleton_eq.
Defined.

(** The first [add_func] of a name that fits [return_def.var_name]
    registers it: the hypotheses of the theorem above hold in the state
    that it leaves. *)
Lemma add_func_fresh (P : Platform) (L : Limits) (st : funcs_state)
    (m : hashmap_t) (name : string) (obj : func_t) :
  FUNCS_MAP st = Some m -> wf_hashmap m -> key_absent m name ->
  strlen name < MAX_VAR_LEN ->
  exists st1,
    add_func (Some obj) true st name
      = Ret (Some (fresh (dom (func_heap st))), st1) /\
    hashmap_get (FUNCS_MAP st1) name = Ret (Some (fresh (dom (func_heap st)))) /\
    func_heap st1 !! fresh (dom (func_heap st))
      = Some (set_stack_size (with_return_name obj (strcpy name)) 4).
Proof.
  intros Hmap Hwf Habs Hname.
  destruct (hashmap_get_put m name (Some (fresh (dom (func_heap st)))) Hwf)
    as (c & m1 & Hc & Hput & _ & _ & _ & Hget1).
  destruct (hashmap_get_Ret m name Hwf) as (c' & Hc' & Hget).
  rewrite Hc in Hc'. injection Hc' as <-.
  assert (Hhas : chain_has c name = false).
  { apply chain_has_false. intros n Hn. apply (Habs c n); [| exact Hn].
    eapply list_elem_of_lookup_2, Hc. }
  rewrite Hhas in Hget1. rewrite (chain_find_absent _ _ Hhas) in Hget.
  eexists. unfold add_func, hashmap_contains.
  rewrite Hmap, Hget, !bind_Ret. simpl bool_decide. cbv iota.
  rewrite Hput, bind_Ret. unfold set_return_name.
  rewrite (strcpy_member_Ret _ _ Hname), !bind_Ret. unfold start_stack, load.
  cbn [func_heap FUNCS_MAP]. rewrite lookup_insert_eq, bind_Ret.
  split; [reflexivity |]. cbn [func_heap FUNCS_MAP].
  split; [exact Hget1 | apply lookup_insert_eq].
Qed.

(** * Part III: further properties *)

(** ** C strings: [strcmp] decides equality of the strings denoted *)

Lemma uchar_inj x y : uchar x = uchar y -> x = y.
Proof.
  unfold uchar. intros Heq. apply N2Z.inj in Heq.
  rewrite <- (ascii_N_embedding x), <- (ascii_N_embedding y). now rewrite Heq.
Qed.

Lemma uchar_nul x : uchar x = 0 -> is_nul x = true.
Proof.
  intros Hx. apply Ascii.eqb_eq. apply uchar_inj. exact Hx.
Qed.

Lemma strcmp_eq_cstr a b : strcmp a b = 0 <-> cstr a = cstr b.
Proof.
  revert b. induction a as [| x a IH]; intros b.
  - simpl. destruct b as [| y b]; simpl.
    + split; reflexivity.
    + destruct (is_nul y) eqn:Hy.
      * apply Ascii.eqb_eq in Hy. subst y. split; reflexivity.
      * split; [| discriminate]. intros Hz.
        rewrite uchar_nul in Hy by lia. discriminate.
  - simpl. destruct (is_nul x) eqn:Hx.
    + destruct b as [| y b]; simpl; [split; reflexivity |].
      destruct (is_nul y) eqn:Hy.
      * apply Ascii.eqb_eq in Hy. subst y. split; reflexivity.
      * split; [| discriminate]. intros Hz.
        rewrite uchar_nul in Hy by lia. discriminate.
    + destruct b as [| y b]; simpl.
      * split; [| discriminate]. intros Hz.
        rewrite uchar_nul in Hx by lia. discriminate.
      * destruct (Ascii.eqb_spec x y) as [<- | Hne].
        -- rewrite Hx, IH. split; [intros -> | intros [= ->]]; reflexivity.
        -- split.
           ++ intros Hz. exfalso. apply Hne, uchar_inj. lia.
           ++ destruct (is_nul y); [discriminate |]. intros [= Hxy _]. contradiction.
Qed.

Lemma streq_cstr a b : streq a b = true <-> cstr a = cstr b.
Proof.
  unfold streq. rewrite Z.eqb_eq. apply strcmp_eq_cstr.
Qed.

Lemma streq_sym a b : streq a b = streq b a.
Proof.
  destruct (streq a b) eqn:Hab, (streq b a) eqn:Hba; try reflexivity.
  - apply streq_cstr in Hab. symmetry in Hab. apply streq_cstr in Hab. congruence.
  - apply streq_cstr in Hba. symmetry in Hba. apply streq_cstr in Hba. congruence.
Qed.

(** Two names that match one stored name match each other. *)
Lemma streq_trans_l a b c : streq a c = true -> streq b c = true -> streq a b = true.
Proof.
  rewrite !streq_cstr. congruence.
Qed.

Lemma streq_strcpy_l a b : streq (strcpy a) b = streq a b.
Proof. unfold streq, strcpy. now rewrite strcmp_cstr_l. Qed.

Lemma streq_strcpy_r' a b : streq a (strcpy b) = streq a b.
Proof. unfold streq, strcpy. now rewrite strcmp_cstr_r. Qed.

(** ** [round_up_pow2] and [hashmap_create] outside of the documented sizes *)

Lemma smear_neg x : - 2 ^ 31 <= x < 0 -> smear x = -1.
Proof.
  intros Hx. apply Z.bits_inj'. intros i Hi.
  rewrite Z.bits_m1 by exact Hi.
  apply (smear_covers x i Hi). exists 31. split; [lia |].
  apply Z.bits_above_log2_neg; [lia |].
  destruct (Z.eq_dec (Z.pred (- x)) 0) as [-> | Hnz]; [simpl; lia |].
  assert (Z.log2 (Z.pred (- x)) < 31) by (apply Z.log2_lt_pow2; lia).
  lia.
Qed.

Lemma round_up_pow2_nonpos v : Int.INT_MIN < v <= 0 -> round_up_pow2 v = 0.
Proof.
  intros Hv. rewrite round_up_pow2_smear.
  rewrite (wrap_small (v - 1)) by int_range.
  rewrite smear_neg by (unfold Int.INT_MIN in Hv; lia).
  reflexivity.
Qed.

Section HashmapMore.
Context `{Platform}.

(** X1. A non-positive size, which the documentation of [hashmap_create]
    excludes, is rounded to 0: when the allocations succeed, the map made
    has no bucket, and every lookup in it reads a bucket outside of the
    array. *)
Theorem hashmap_create_nonpos (size : Z) (k : string) :
  Int.INT_MIN < size <= 0 ->
  hashmap_create true size = Some {| hm_size := 0; hm_buckets := [] |} /\
  exists i, hashmap_get (hashmap_create true size) k = Fault (OutOfBounds i).
Proof.
  intros Hsize. unfold hashmap_create. rewrite (round_up_pow2_nonpos _ Hsize).
  split; [reflexivity |]. unfold hashmap_get. cbn [hm_size hm_buckets].
  exists (hashmap_hash_index 0 k). unfold array_get.
  destruct (hashmap_hash_index 0 k <? 0); reflexivity.
Qed.

End HashmapMore.

Lemma hashmap_create_nonpos_witness :
  Int.INT_MIN < 0 <= 0 /\
  hashmap_create true 0 = Some {| hm_size := 0; hm_buckets := [] |} /\
  exists i, @hashmap_get signed_char_platform (hashmap_create true 0) "main"
            = Fault (OutOfBounds i).
Proof.
  assert (Hz : Int.INT_MIN < 0 <= 0) by int_range.
  split; [exact Hz |].
  exact (@hashmap_create_nonpos signed_char_platform 0 "main"%string Hz).
Defined.

(** ** The hashmap: creation, insertion, lookup *)


Section HashmapOps.
Context `{Platform}.

(** What [hashmap_put] does to a well-formed map, whether or not the node
    can be allocated. *)
Lemma hashmap_put_any m mem k v :
  wf_hashmap m ->
  exists c,
    hm_buckets m !! Z.to_nat (hashmap_hash_index (hm_size m) k) = Some c /\
    hashmap_put mem (Some m) k v =
      Ret (Some {| hm_size := hm_size m;
                   hm_buckets :=
                     <[Z.to_nat (hashmap_hash_index (hm_size m) k) :=
                         c ++ chain_of (hashmap_node_new mem k v)]> (hm_buckets m) |}).
Proof.
  intros [Hsize Hlen].
  pose proof (hashmap_hash_index_bound (hm_size m) k Hsize) as Hidx.
  assert (Hin : 0 <= hashmap_hash_index (hm_size m) k
                < Z.of_nat (length (hm_buckets m))) by lia.
  destruct (array_get_Ret _ _ Hin) as (c & Hc & Hget).
  exists c. split; [exact Hc |].
  unfold hashmap_put. rewrite Hget, bind_Ret.
  rewrite array_set_Ret by lia. rewrite bind_Ret.
  destruct c as [| cur c]; [reflexivity |].
  rewrite set_last_next_app by discriminate. reflexivity.
Qed.


(** X3. When the node cannot be allocated ([hashmap_node_new] returns
    null), [hashmap_put] on a well-formed map returns and leaves the map
    as it is: no node is linked and no bucket changes. *)
Theorem hashmap_put_no_memory (m : hashmap_t) (k : string) (v : ptr) :
  wf_hashmap m -> hashmap_put false (Some m) k v = Ret (Some m).
Proof.
  intros Hwf. destruct (hashmap_put_any m false k v Hwf) as (c & Hc & Hput).
  rewrite Hput. simpl chain_of. rewrite app_nil_r, list_insert_id by exact Hc.
  destruct m. reflexivity.
Qed.

(** X4. [hashmap_put] never rehashes and never removes: the size and the
    number of buckets stay, the map stays well formed, and every chain
    keeps its nodes, in order, as a prefix of the chain after the call. *)
Theorem hashmap_put_keeps (m : hashmap_t) (mem : bool) (k : string) (v : ptr) :
  wf_hashmap m ->
  exists m',
    hashmap_put mem (Some m) k v = Ret (Some m') /\
    wf_hashmap m' /\ hm_size m' = hm_size m /\
    length (hm_buckets m') = length (hm_buckets m) /\
    forall j c, hm_buckets m !! j = Some c ->
      exists c', hm_buckets m' !! j = Some c' /\ c `prefix_of` c'.
Proof.
  intros Hwf. destruct (hashmap_put_any m mem k v Hwf) as (c0 & Hc0 & Hput).
  eexists. split; [exact Hput |]. cbn [hm_size hm_buckets].
  destruct Hwf as [Hsize Hlen].
  split; [split; cbn [hm_size hm_buckets]; [exact Hsize | now rewrite length_insert] |].
  split; [reflexivity |]. split; [apply length_insert |].
  intros j c Hj.
  destruct (decide (j = Z.to_nat (hashmap_hash_index (hm_size m) k))) as [-> | Hne].
  - rewrite Hc0 in Hj. injection Hj as <-.
    eexists. split; [apply list_lookup_insert_eq; eapply lookup_lt_Some, Hc0 |].
    apply prefix_app_r. reflexivity.
  - exists c. split; [rewrite list_lookup_insert_ne by congruence; exact Hj |].
    reflexivity.
Qed.

(** X5. A put of a key that no node of the map has is found by the next
    lookup of the key, and [hashmap_contains] is then true exactly when
    the value put is not null. *)
Theorem hashmap_put_get_new (m : hashmap_t) (k : string) (v : ptr) :
  wf_hashmap m -> key_absent m k ->
  exists m',
    hashmap_put true (Some m) k v = Ret (Some m') /\
    hashmap_get (Some m') k = Ret v /\
    hashmap_contains (Some m') k = Ret (bool_decide (v <> None)).
Proof.
  intros Hwf Habs.
  destruct (hashmap_get_put m k v Hwf) as (c & m' & Hc & Hput & _ & _ & _ & Hget).
  exists m'. split; [exact Hput |].
  rewrite chain_has_false in Hget.
  - unfold hashmap_contains. rewrite Hget. split; reflexivity.
  - intros n Hn. apply (Habs c n); [| exact Hn]. eapply list_elem_of_lookup_2, Hc.
Qed.

Lemma hashmap_put_any_wf m mem k v m' :
  wf_hashmap m -> hashmap_put mem (Some m) k v = Ret (Some m') -> wf_hashmap m'.
Proof.
  intros Hwf Hput. destruct (hashmap_put_any m mem k v Hwf) as (c & _ & Heq).
  rewrite Heq in Hput. injection Hput as <-.
  destruct Hwf as [Hsize Hlen]. split; cbn [hm_size hm_buckets]; [exact Hsize |].
  rewrite length_insert. exact Hlen.
Qed.

(** The lookup of a key passes the node of another key. *)
Lemma hashmap_put_frame m mem k' k v m' :
  wf_hashmap m -> streq k' k = false ->
  hashmap_put mem (Some m) k' v = Ret (Some m') ->
  hashmap_get (Some m') k = hashmap_get (Some m) k.
Proof.
  intros Hwf Hne Hput.
  pose proof (hashmap_put_any_wf _ _ _ _ _ Hwf Hput) as Hwf'.
  destruct (hashmap_put_any m mem k' v Hwf) as (c0 & Hc0 & Hput').
  rewrite Hput' in Hput. injection Hput as <-.
  destruct (hashmap_get_Ret m k Hwf) as (c & Hc & Hget).
  destruct (hashmap_get_Ret _ k Hwf') as (c' & Hc' & Hget').
  rewrite Hget, Hget'. f_equal. cbn [hm_size hm_buckets] in Hc'.
  destruct (decide (Z.to_nat (hashmap_hash_index (hm_size m) k')
                    = Z.to_nat (hashmap_hash_index (hm_size m) k))) as [Heq | Hneq].
  - rewrite Heq in Hc0, Hc'. rewrite Hc in Hc0. injection Hc0 as <-.
    rewrite list_lookup_insert_eq in Hc' by (eapply lookup_lt_Some, Hc).
    injection Hc' as <-. rewrite chain_find_app.
    destruct (chain_has c k) eqn:Hhas; [reflexivity |].
    rewrite (chain_find_absent _ _ Hhas).
    destruct mem; [| reflexivity].
    simpl. rewrite streq_strcpy_l, Hne. reflexivity.
  - rewrite list_lookup_insert_ne in Hc' by exact Hneq. congruence.
Qed.

(** X6. A put does not change the lookup of any other key. *)
Theorem hashmap_put_other (m : hashmap_t) (mem : bool) (k' k : string) (v : ptr) :
  wf_hashmap m -> streq k' k = false ->
  exists m',
    hashmap_put mem (Some m) k' v = Ret (Some m') /\
    hashmap_get (Some m') k = hashmap_get (Some m) k.
Proof.
  intros Hwf Hne.
  destruct (hashmap_put_any m mem k' v Hwf) as (c0 & _ & Hput).
  eexists. split; [exact Hput |].
  apply (hashmap_put_frame m mem k' k v _ Hwf Hne Hput).
Qed.

End HashmapOps.


Lemma wf_empty_map4 : wf_hashmap empty_map4.
Proof. split; simpl; int_range. Qed.

Lemma key_absent_empty_map4 k : key_absent empty_map4 k.
Proof.
  intros c n Hc Hn. simpl in Hc.
  repeat (apply elem_of_cons in Hc; destruct Hc as [-> | Hc];
          [apply elem_of_nil in Hn; destruct Hn |]).
  apply elem_of_nil in Hc. destruct Hc.
Qed.

Lemma wf_map_with_f : wf_hashmap map_with_f.
Proof. split; simpl; int_range. Qed.

Lemma hashmap_put_no_memory_witness :
  wf_hashmap map_with_f /\
  @hashmap_put signed_char_platform false (Some map_with_f) "g"%string (Some 1%nat)
    = Ret (Some map_with_f).
Proof.
  split; [exact wf_map_with_f |].
  exact (@hashmap_put_no_memory signed_char_platform map_with_f "g"%string (Some 1%nat)
           wf_map_with_f).
Defined.

Lemma hashmap_put_keeps_witness :
  wf_hashmap map_with_f /\
  exists m',
    @hashmap_put signed_char_platform true (Some map_with_f) "g"%string (Some 1%nat)
      = Ret (Some m') /\
    wf_hashmap m' /\ hm_size m' = hm_size map_with_f /\
    length (hm_buckets m') = length (hm_buckets map_with_f) /\
    forall j c, hm_buckets map_with_f !! j = Some c ->
      exists c', hm_buckets m' !! j = Some c' /\ c `prefix_of` c'.
Proof.
  split; [exact wf_map_with_f |].
  exact (@hashmap_put_keeps signed_char_platform map_with_f true "g"%string (Some 1%nat)
           wf_map_with_f).
Defined.

Lemma hashmap_put_get_new_witness :
  wf_hashmap empty_map4 /\ key_absent empty_map4 "main"%string /\
  exists m',
    @hashmap_put signed_char_platform true (Some empty_map4) "main"%string (Some 3%nat)
      = Ret (Some m') /\
    @hashmap_get signed_char_platform (Some m') "main"%string = Ret (Some 3%nat) /\
    @hashmap_contains signed_char_platform (Some m') "main"
      = Ret (bool_decide (Some 3%nat <> None)).
Proof.
  split; [exact wf_empty_map4 |]. split; [exact (key_absent_empty_map4 "main"%string) |].
  exact (@hashmap_put_get_new signed_char_platform empty_map4 "main"%string (Some 3%nat)
           wf_empty_map4 (key_absent_empty_map4 "main"%string)).
Defined.

Lemma hashmap_put_other_witness :
  wf_hashmap map_with_f /\ streq "g"%string "f"%string = false /\
  exists m',
    @hashmap_put signed_char_platform true (Some map_with_f) "g"%string (Some 1%nat)
      = Ret (Some m') /\
    @hashmap_get signed_char_platform (Some m') "f"
      = @hashmap_get signed_char_platform (Some map_with_f) "f"%string.
Proof.
  split; [exact wf_map_with_f |]. split; [reflexivity |].
  exact (@hashmap_put_other signed_char_platform map_with_f true "g"%string "f"%string (Some 1%nat)
           wf_map_with_f eq_refl).
Defined.

(** ** [add_func] and [find_func] *)

Section FuncsMore.
Context `{Platform} `{Limits}.

Lemma hashmap_get_absent m k :
  wf_hashmap m -> key_absent m k -> hashmap_get (Some m) k = Ret None.
Proof.
  intros Hwf Habs. destruct (hashmap_get_Ret m k Hwf) as (c & Hc & Hget).
  rewrite Hget. f_equal. apply chain_find_absent, chain_has_false.
  intros n Hn. apply (Habs c n); [| exact Hn]. eapply list_elem_of_lookup_2, Hc.
Qed.

(** X7. [add_func] of a name that is not in the map and has fewer than
    [MAX_VAR_LEN] characters, with memory for the function and the node:
    the function returned is a new object, whose [return_def.var_name]
    holds the copy of [name], with stack size 4; [find_func(name)]
    returns it from then on; the functions that existed are unchanged,
    and so is the lookup of every other name. *)
Theorem add_func_new (st : funcs_state) (m : hashmap_t) (name : string)
    (obj : func_t) :
  FUNCS_MAP st = Some m -> wf_hashmap m -> key_absent m name ->
  strlen name < MAX_VAR_LEN ->
  exists l st1 f,
    add_func (Some obj) true st name = Ret (Some l, st1) /\
    func_heap st !! l = None /\
    func_heap st1 !! l = Some f /\
    var_name (return_def f) = strcpy name /\ stack_size f = 4 /\
    find_func st1 name = Ret (Some l) /\
    (forall l', l' <> l -> func_heap st1 !! l' = func_heap st !! l') /\
    (forall name', streq name name' = false ->
                   find_func st1 name' = find_func st name').
Proof.
  intros Hmap Hwf Habs Hname.
  set (l := fresh (dom (func_heap st))).
  pose proof (hashmap_get_absent m name Hwf Habs) as Hget.
  destruct (hashmap_get_put m name (Some l) Hwf)
    as (c & m1 & Hc & Hput1 & _ & _ & _ & Hget1).
  rewrite chain_has_false in Hget1
    by (intros n Hn; apply (Habs c n); [eapply list_elem_of_lookup_2, Hc | exact Hn]).
  eexists l, _, _. unfold add_func, hashmap_contains.
  rewrite Hmap, Hget, !bind_Ret. simpl bool_decide. cbv iota.
  fold l. rewrite Hput1, bind_Ret. unfold set_return_name.
  rewrite (strcpy_member_Ret _ _ Hname), !bind_Ret. unfold start_stack, load.
  cbn [func_heap FUNCS_MAP]. rewrite lookup_insert_eq, bind_Ret.
  split; [reflexivity |]. cbn [func_heap FUNCS_MAP].
  split; [apply not_elem_of_dom, is_fresh |].
  split; [apply lookup_insert_eq |].
  split; [reflexivity |]. split; [reflexivity |].
  split; [exact Hget1 |]. split.
  - intros l' Hne. rewrite !lookup_insert_ne by congruence. reflexivity.
  - intros name' Hne. unfold find_func. cbn [FUNCS_MAP]. rewrite Hmap.
    apply (hashmap_put_frame m true name name' (Some l) m1 Hwf Hne Hput1).
Qed.

(** X8. [add_func] of a name that is not in the map, without memory.  When
    the function cannot be allocated, null is returned and nothing
    changes, whatever the name.  When only the node of the map cannot be
    allocated and the name has fewer than [MAX_VAR_LEN] characters, so
    that the copy into [return_def.var_name] stays within the member, the
    function is made and returned but not registered: the map is
    unchanged and [find_func(name)] still returns null.  With a longer
    name the copy leaves the member. *)
Theorem add_func_no_memory (st : funcs_state) (m : hashmap_t) (name : string)
    (obj : func_t) (node_mem : bool) :
  FUNCS_MAP st = Some m -> wf_hashmap m -> key_absent m name ->
  add_func None node_mem st name = Ret (None, st) /\
  (strlen name < MAX_VAR_LEN ->
   exists l st1,
     add_func (Some obj) false st name = Ret (Some l, st1) /\
     func_heap st !! l = None /\ is_Some (func_heap st1 !! l) /\
     FUNCS_MAP st1 = FUNCS_MAP st /\
     find_func st1 name = Ret None) /\
  (MAX_VAR_LEN <= strlen name ->
   add_func (Some obj) false st name = Fault (OutOfBounds MAX_VAR_LEN)).
Proof.
  intros Hmap Hwf Habs.
  pose proof (hashmap_get_absent m name Hwf Habs) as Hget.
  destruct (hashmap_put_any m false name
              (Some (fresh (dom (func_heap st)))) Hwf) as (c & Hc & Hput).
  simpl chain_of in Hput. rewrite app_nil_r, list_insert_id in Hput by exact Hc.
  replace {| hm_size := hm_size m; hm_buckets := hm_buckets m |} with m in Hput
    by (destruct m; reflexivity).
  split; [| split].
  - unfold add_func, hashmap_contains. rewrite Hmap, Hget, !bind_Ret. reflexivity.
  - intros Hname. eexists (fresh (dom (func_heap st))), _.
    unfold add_func, hashmap_contains. rewrite Hmap, Hget, !bind_Ret.
    simpl bool_decide. cbv iota.
    rewrite Hput, bind_Ret. unfold set_return_name.
    rewrite (strcpy_member_Ret _ _ Hname), !bind_Ret.
    unfold start_stack, load. cbn [func_heap FUNCS_MAP].
    rewrite lookup_insert_eq, bind_Ret.
    split; [reflexivity |]. cbn [func_heap FUNCS_MAP].
    split; [apply not_elem_of_dom, is_fresh |].
    split; [rewrite lookup_insert_eq; eexists; reflexivity |].
    split; [reflexivity |].
    unfold find_func. cbn [FUNCS_MAP]. exact Hget.
  - intros Hname. unfold add_func, hashmap_contains.
    rewrite Hmap, Hget, !bind_Ret. simpl bool_decide. cbv iota.
    rewrite Hput, bind_Ret. unfold set_return_name, strcpy_member.
    destruct (Z.ltb_spec (strlen name) MAX_VAR_LEN) as [? | _]; [lia | reflexivity].
Qed.

End FuncsMore.

Lemma add_func_new_witness :
  FUNCS_MAP empty_funcs = Some empty_map4 /\ wf_hashmap empty_map4 /\
  key_absent empty_map4 "main"%string /\
  strlen "main"%string < @MAX_VAR_LEN example_limits /\
  exists l st1 f,
    @add_func signed_char_platform example_limits (Some junk_func) true empty_funcs "main"
      = Ret (Some l, st1) /\
    func_heap empty_funcs !! l = None /\
    func_heap st1 !! l = Some f /\
    var_name (return_def f) = strcpy "main"%string /\ stack_size f = 4 /\
    @find_func signed_char_platform st1 "main"%string = Ret (Some l) /\
    (forall l', l' <> l -> func_heap st1 !! l' = func_heap empty_funcs !! l') /\
    (forall name', streq "main"%string name' = false ->
                   @find_func signed_char_platform st1 name'
                   = @find_func signed_char_platform empty_funcs name').
Proof.
  split; [reflexivity |]. split; [exact wf_empty_map4 |].
  split; [exact (key_absent_empty_map4 "main"%string) |].
  split; [reflexivity |].
  exact (@add_func_new signed_char_platform example_limits empty_funcs empty_map4
           "main"%string junk_func
           eq_refl wf_empty_map4 (key_absent_empty_map4 "main"%string) eq_refl).
Defined.

Lemma add_func_no_memory_witness :
  FUNCS_MAP empty_funcs = Some empty_map4 /\ wf_hashmap empty_map4 /\
  key_absent empty_map4 "main"%string /\
  strlen "main"%string < @MAX_VAR_LEN example_limits /\
  @add_func signed_char_platform example_limits None true empty_funcs "main"%string
    = Ret (None, empty_funcs) /\
  exists l st1,
    @add_func signed_char_platform example_limits (Some junk_func) false empty_funcs "main"
      = Ret (Some l, st1) /\
    func_heap empty_funcs !! l = None /\ is_Some (func_heap st1 !! l) /\
    FUNCS_MAP st1 = FUNCS_MAP empty_funcs /\
    @find_func signed_char_platform st1 "main"%string = Ret None.
Proof.
  split; [reflexivity |]. split; [exact wf_empty_map4 |].
  split; [exact (key_absent_empty_map4 "main"%string) |].
  split; [reflexivity |].
  destruct (@add_func_no_memory signed_char_platform example_limits empty_funcs
              empty_map4 "main"%string junk_func true eq_refl wf_empty_map4
              (key_absent_empty_map4 "main"%string)) as (Hnull & Hmade & _).
  split; [exact Hnull | exact (Hmade eq_refl)].
Defined.

(** ** Aliases, macros, constants and labels *)

(** X9. [add_alias(Y, v)] on a table with an entry left (fewer than
    [MAX_ALIASES] in use), for [Y] and [v] of fewer than [MAX_VAR_LEN]
    characters each, returns.  After it a lookup that succeeded before
    returns what it returned before: a definition in the table is never
    overridden.  A lookup that failed before finds the new entry, with
    the copy of [v], when the name is [Y], and fails otherwise. *)
Theorem add_alias_find (L : Limits) (ALIASES : list alias_t) (Y v : string) :
  Z.of_nat (length ALIASES) < MAX_ALIASES ->
  strlen Y < MAX_VAR_LEN -> strlen v < MAX_VAR_LEN ->
  exists ALIASES',
    add_alias ALIASES Y v = Ret ALIASES' /\
    forall X,
      find_alias ALIASES' X =
        match find_alias ALIASES X with
        | Some w => Some w
        | None => if streq X Y then Some (strcpy v) else None
        end.
Proof.
  intros Hlen HY Hv. eexists.
  split; [apply add_alias_Ret; assumption |].
  intros X. rewrite find_alias_app.
  destruct (find_alias ALIASES X); [reflexivity |].
  simpl. rewrite streq_strcpy_r'. reflexivity.
Qed.

Lemma add_alias_find_witness :
  Z.of_nat (length once_defined) < @MAX_ALIASES example_limits /\
  strlen "Z"%string < @MAX_VAR_LEN example_limits /\
  strlen "z"%string < @MAX_VAR_LEN example_limits /\
  exists ALIASES',
    @add_alias example_limits once_defined "Z"%string "z"%string = Ret ALIASES' /\
    forall X,
      find_alias ALIASES' X =
        match find_alias once_defined X with
        | Some w => Some w
        | None => if streq X "Z"%string then Some (strcpy "z"%string) else None
        end.
Proof.
  split; [reflexivity |]. split; [reflexivity |]. split; [reflexivity |].
  exact (add_alias_find example_limits once_defined "Z"%string "z"%string
           eq_refl eq_refl eq_refl).
Defined.

(** X10. [remove_alias(X)] on a table without an enabled entry for [X]
    returns false and changes nothing.  In every case the table keeps its
    length (entries are disabled, never removed), and the lookup of every
    other name is unchanged. *)
Theorem remove_alias_other (ALIASES : list alias_t) (X Y : string) :
  (find_alias ALIASES X = None -> remove_alias ALIASES X = (false, ALIASES)) /\
  length (remove_alias ALIASES X).2 = length ALIASES /\
  (streq X Y = false ->
   find_alias (remove_alias ALIASES X).2 Y = find_alias ALIASES Y).
Proof.
  split; [| split; [apply remove_alias_length |]].
  - induction ALIASES as [| e l IH]; [reflexivity |].
    simpl. destruct (negb (disabled e) && streq X (alias e)); [discriminate |].
    intros Hnone. rewrite (IH Hnone). reflexivity.
  - intros Hne. induction ALIASES as [| e l IH]; [reflexivity |].
    simpl. destruct (negb (disabled e) && streq X (alias e)) eqn:HX.
    + simpl. apply andb_true_iff in HX. destruct HX as [Hen HX].
      rewrite Hen. simpl.
      destruct (streq Y (alias e)) eqn:HY; [| reflexivity].
      rewrite (streq_trans_l _ _ _ HX HY) in Hne. discriminate.
    + destruct (remove_alias l X) as [r rest]. simpl in *.
      rewrite IH. reflexivity.
Qed.

Lemma remove_alias_other_witness :
  (find_alias once_defined "Z"%string = None ->
   remove_alias once_defined "Z"%string = (false, once_defined)) /\
  length (remove_alias once_defined "Z"%string).2 = length once_defined /\
  (streq "Z"%string "X"%string = false ->
   find_alias (remove_alias once_defined "Z"%string).2 "X"%string = find_alias once_defined "X"%string).
Proof. exact (remove_alias_other once_defined "Z"%string "X"%string). Defined.

Lemma find_macro_from_spec i macros name :
  match find_macro_from i macros name with
  | Some j =>
      exists n e, j = (i + n)%nat /\ macros !! n = Some e /\
        macro_hit name e = true /\
        forall n' e', (n' < n)%nat -> macros !! n' = Some e' ->
                      macro_hit name e' = false
  | None => forall n e, macros !! n = Some e -> macro_hit name e = false
  end.
Proof.
  revert i. induction macros as [| e macros IH]; intros i.
  - simpl. intros n e Hn. rewrite lookup_nil in Hn. discriminate.
  - simpl. fold (macro_hit name e). destruct (macro_hit name e) eqn:Hhit.
    + exists 0%nat, e. split; [lia |]. split; [reflexivity |].
      split; [exact Hhit |]. intros n' e' Hlt. lia.
    + specialize (IH (S i)). destruct (find_macro_from (S i) macros name) as [j |].
      * destruct IH as (n & e0 & -> & Hn & Hhit0 & Hfirst).
        exists (S n), e0. split; [lia |]. split; [exact Hn |].
        split; [exact Hhit0 |].
        intros [| n'] e' Hlt Hn'; [injection Hn' as <-; exact Hhit |].
        apply (Hfirst n' e'); [lia | exact Hn'].
      * intros [| n] e0 Hn; [injection Hn as <-; exact Hhit |].
        apply (IH n e0 Hn).
Qed.

(** X11. [find_macro] returns the first enabled entry of the name: the
    entry returned is enabled and has the name, and no entry before it is
    an enabled entry of the name; it returns null only when the table has
    no enabled entry of the name. *)
Theorem find_macro_first (MACROS : list macro_t) (name : string) :
  match find_macro MACROS name with
  | Some i =>
      exists e, MACROS !! i = Some e /\
        macro_disabled e = false /\ streq name (macro_name e) = true /\
        forall j e', (j < i)%nat -> MACROS !! j = Some e' ->
                     macro_hit name e' = false
  | None => forall j e, MACROS !! j = Some e -> macro_hit name e = false
  end.
Proof.
  unfold find_macro. pose proof (find_macro_from_spec 0 MACROS name) as Hspec.
  destruct (find_macro_from 0 MACROS name) as [i |]; [| exact Hspec].
  destruct Hspec as (n & e & -> & Hn & Hhit & Hfirst).
  exists e. split; [exact Hn |].
  unfold macro_hit in Hhit. apply andb_true_iff in Hhit. destruct Hhit as [Hen Hname].
  split; [now apply negb_true_iff |]. split; [exact Hname | exact Hfirst].
Qed.

Lemma find_macro_first_witness :
  exists e, [max_macro] !! 0%nat = Some e /\
    macro_disabled e = false /\ streq "MAX"%string (macro_name e) = true /\
    forall j e', (j < 0)%nat -> [max_macro] !! j = Some e' ->
                 macro_hit "MAX"%string e' = false.
Proof. exact (find_macro_first [max_macro] "MAX"%string). Defined.

Lemma find_macro_from_app i l l' name :
  find_macro_from i (l ++ l') name =
    match find_macro_from i l name with
    | Some j => Some j
    | None => find_macro_from (i + length l) l' name
    end.
Proof.
  revert i. induction l as [| e l IH]; intros i.
  - simpl. now rewrite Nat.add_0_r.
  - simpl. destruct (negb (macro_disabled e) && streq name (macro_name e));
      [reflexivity |].
    rewrite IH. now replace (S i + length l)%nat with (i + S (length l))%nat by lia.
Qed.

Lemma find_macro_from_None i l name :
  enabled_macros l name = 0%nat -> find_macro_from i l name = None.
Proof.
  unfold enabled_macros. revert i. induction l as [| e l IH]; intros i; [reflexivity |].
  simpl. unfold macro_hit at 1.
  destruct (negb (macro_disabled e) && streq name (macro_name e));
    [discriminate | apply IH].
Qed.

Lemma remove_macro_matches l name n :
  enabled_macros l name = S n ->
  (remove_macro l name).1 = true /\
  enabled_macros (remove_macro l name).2 name = n /\
  length (remove_macro l name).2 = length l.
Proof.
  unfold enabled_macros. revert n. induction l as [| e l IH]; intros n; [discriminate |].
  simpl. unfold macro_hit at 1.
  destruct (negb (macro_disabled e) && streq name (macro_name e)) eqn:Hhit.
  - simpl. intros [= Hn]. split; [reflexivity |]. split; [exact Hn | reflexivity].
  - intros Hn. destruct (IH n Hn) as (Hr & Hm & Hlen).
    destruct (remove_macro l name) as [r rest]. simpl in *.
    split; [exact Hr |]. unfold macro_hit at 1. rewrite Hhit.
    split; [exact Hm | now rewrite Hlen].
Qed.

(** X12. For a macro name with exactly one enabled entry: [remove_macro]
    returns true and [find_macro] then returns null.  When [MACROS] has
    an entry left (fewer than the [MAX_ALIASES] allocated are in use) and
    the name has fewer than [MAX_VAR_LEN] characters, a following
    [add_macro] of the name takes a new entry at the end of the table
    (the disabled entry is not reused), and [find_macro] returns the
    pointer that [add_macro] returned. *)
Theorem remove_add_find_macro (L : Limits) (slot : macro_t)
    (MACROS : list macro_t) (name : string) :
  enabled_macros MACROS name = 1%nat ->
  Z.of_nat (length MACROS) < MAX_ALIASES ->
  strlen name < MAX_VAR_LEN ->
  (remove_macro MACROS name).1 = true /\
  find_macro (remove_macro MACROS name).2 name = None /\
  exists MACROS',
    add_macro slot (remove_macro MACROS name).2 name
      = Ret (Some (length MACROS), MACROS') /\
    find_macro MACROS' name = Some (length MACROS).
Proof.
  intros Hone Hroom Hname.
  destruct (remove_macro_matches _ _ _ Hone) as (Hr & Hm & Hlen).
  split; [exact Hr |].
  split; [apply find_macro_from_None, Hm |].
  eexists. split.
  - unfold add_macro. rewrite next_entry_Ret, bind_Ret by (rewrite Hlen; exact Hroom).
    rewrite (strcpy_member_Ret _ _ Hname), bind_Ret, Hlen. reflexivity.
  - unfold find_macro.
    rewrite find_macro_from_app, (find_macro_from_None _ _ _ Hm).
    simpl. rewrite streq_strcpy_r, Hlen. reflexivity.
Qed.

Lemma remove_add_find_macro_witness :
  enabled_macros [max_macro] "MAX"%string = 1%nat /\
  Z.of_nat (length [max_macro]) < @MAX_ALIASES example_limits /\
  strlen "MAX"%string < @MAX_VAR_LEN example_limits /\
  (remove_macro [max_macro] "MAX"%string).1 = true /\
  find_macro (remove_macro [max_macro] "MAX"%string).2 "MAX"%string = None /\
  exists MACROS',
    @add_macro example_limits junk_macro (remove_macro [max_macro] "MAX"%string).2 "MAX"%string
      = Ret (Some (length [max_macro]), MACROS') /\
    find_macro MACROS' "MAX"%string = Some (length [max_macro]).
Proof.
  split; [reflexivity |]. split; [reflexivity |]. split; [reflexivity |].
  exact (remove_add_find_macro example_limits junk_macro [max_macro] "MAX"%string
           eq_refl eq_refl eq_refl).
Defined.

Lemma find_constant_from_app i l l' a :
  find_constant_from i (l ++ l') a =
    match find_constant_from i l a with
    | Some j => Some j
    | None => find_constant_from (i + length l) l' a
    end.
Proof.
  revert i. induction l as [| e l IH]; intros i.
  - simpl. now rewrite Nat.add_0_r.
  - simpl. destruct (streq (const_alias e) a); [reflexivity |].
    rewrite IH. now replace (S i + length l)%nat with (i + S (length l))%nat by lia.
Qed.

(** X13. [add_constant(a, v)] on a table with an entry left (fewer than
    [MAX_CONSTANTS] in use), for [a] of fewer than [MAX_VAR_LEN]
    characters, returns.  After it a constant that was found before is
    found at the same entry (the first definition wins); a name that was
    not found is found at the new entry when it is [a], and not found
    otherwise.  The new entry holds the copy of [a] and [v]. *)
Theorem add_constant_find (L : Limits) (CONSTANTS : list constant_t)
    (a : string) (v : Z) :
  Z.of_nat (length CONSTANTS) < MAX_CONSTANTS ->
  strlen a < MAX_VAR_LEN ->
  exists CONSTANTS',
    add_constant CONSTANTS a v = Ret CONSTANTS' /\
    (forall b,
       find_constant CONSTANTS' b =
         match find_constant CONSTANTS b with
         | Some i => Some i
         | None => if streq a b then Some (length CONSTANTS) else None
         end) /\
    CONSTANTS' !! length CONSTANTS
      = Some {| const_alias := strcpy a; const_value := v |}.
Proof.
  intros Hroom Ha. eexists. split.
  - unfold add_constant. rewrite (next_entry_Ret _ _ Hroom), bind_Ret.
    rewrite (strcpy_member_Ret _ _ Ha), bind_Ret. reflexivity.
  - unfold find_constant. split.
    + intros b. rewrite find_constant_from_app.
      destruct (find_constant_from 0 CONSTANTS b); [reflexivity |].
      simpl. rewrite streq_strcpy_l. reflexivity.
    + rewrite lookup_app_r by lia. now rewrite Nat.sub_diag.
Qed.

Lemma add_constant_find_witness :
  Z.of_nat (length (@nil constant_t)) < @MAX_CONSTANTS example_limits /\
  strlen "EOF"%string < @MAX_VAR_LEN example_limits /\
  exists CONSTANTS',
    @add_constant example_limits [] "EOF"%string (-1) = Ret CONSTANTS' /\
    (forall b,
       find_constant CONSTANTS' b =
         match find_constant [] b with
         | Some i => Some i
         | None => if streq "EOF"%string b then Some (length (@nil constant_t)) else None
         end) /\
    CONSTANTS' !! length (@nil constant_t)
      = Some {| const_alias := strcpy "EOF"%string; const_value := -1 |}.
Proof.
  split; [reflexivity |]. split; [reflexivity |].
  exact (add_constant_find example_limits [] "EOF"%string (-1) eq_refl eq_refl).
Defined.

Lemma find_label_offset_app l l' name :
  find_label_offset (l ++ l') name =
    if label_known l name then find_label_offset l name
    else find_label_offset l' name.
Proof.
  induction l as [| e l IH]; [reflexivity |].
  simpl. destruct (streq (label_name e) name); [reflexivity | exact IH].
Qed.

(** X14. [find_label_offset] returns -1 for a name without an entry.
    [add_label(n, off)] on a table with an entry left (fewer than
    [MAX_LABEL] in use), for [n] of fewer than [MAX_VAR_LEN] characters,
    returns; after it the offset of a label that had an entry is
    unchanged (the first entry wins); a name without an entry gets [off]
    when it is [n] and stays at -1 otherwise. *)
Theorem add_label_find (L : Limits) (LABEL_LUT : list label_lut_t)
    (n : string) (off : Z) :
  Z.of_nat (length LABEL_LUT) < MAX_LABEL ->
  strlen n < MAX_VAR_LEN ->
  (forall m, label_known LABEL_LUT m = false -> find_label_offset LABEL_LUT m = -1) /\
  exists LABEL_LUT',
    add_label LABEL_LUT n off = Ret LABEL_LUT' /\
    forall m,
      find_label_offset LABEL_LUT' m =
        if label_known LABEL_LUT m then find_label_offset LABEL_LUT m
        else if streq n m then off else -1.
Proof.
  intros Hroom Hn. split.
  - intros m. induction LABEL_LUT as [| e l IH]; [reflexivity |].
    simpl. destruct (streq (label_name e) m); [discriminate |].
    apply IH. simpl in Hroom. lia.
  - eexists. split.
    + unfold add_label. rewrite (next_entry_Ret _ _ Hroom), bind_Ret.
      rewrite (strcpy_member_Ret _ _ Hn), bind_Ret. reflexivity.
    + intros m. rewrite find_label_offset_app.
      destruct (label_known LABEL_LUT m); [reflexivity |].
      simpl. rewrite streq_strcpy_l. reflexivity.
Qed.

Lemma add_label_find_witness :
  Z.of_nat (length (@nil label_lut_t)) < @MAX_LABEL example_limits /\
  strlen "L1"%string < @MAX_VAR_LEN example_limits /\
  (forall m, label_known [] m = false -> find_label_offset [] m = -1) /\
  exists LABEL_LUT',
    @add_label example_limits [] "L1"%string 64 = Ret LABEL_LUT' /\
    forall m,
      find_label_offset LABEL_LUT' m =
        if label_known [] m then find_label_offset [] m
        else if streq "L1"%string m then 64 else -1.
Proof.
  split; [reflexivity |]. split; [reflexivity |].
  exact (add_label_find example_limits [] "L1"%string 64 eq_refl eq_refl).
Defined.

(** ** [set_var_liveout] *)

(** X15. [set_var_liveout] never lowers the liveness of a variable, and
    after two calls the liveness is the greatest of the old value and the
    two ends, in whichever order the calls are made. *)
Theorem set_var_liveout_max (liveness e1 e2 : Z) :
  liveness <= set_var_liveout liveness e1 /\
  set_var_liveout (set_var_liveout liveness e1) e2
    = Z.max liveness (Z.max e1 e2) /\
  set_var_liveout (set_var_liveout liveness e1) e2
    = set_var_liveout (set_var_liveout liveness e2) e1.
Proof.
  unfold set_var_liveout.
  destruct (Z.geb_spec liveness e1), (Z.geb_spec liveness e2);
    repeat match goal with
           | |- context [?a >=? ?b] => destruct (Z.geb_spec a b)
           end; lia.
Qed.

(** ** Blocks and scopes *)

Lemma scope_chain_app BLOCKS more block chain :
  scope_chain BLOCKS block chain -> scope_chain (BLOCKS ++ more) block chain.
Proof.
  induction 1 as [| b blk rest Hb _ IH]; [constructor |].
  econstructor; [apply lookup_app_l_Some, Hb | exact IH].
Qed.

(** X16. [add_block] appends: the pointer returned is the entry behind
    the blocks that existed, which are unchanged; the new block has the
    parent, function and macro given and no local; and when the scope
    chain of the parent ends, so does the chain of the new block, which
    is the new block followed by the chain of the parent. *)
Theorem add_block_chain (BLOCKS : list block_t) (parent_ : option nat)
    (func_ : ptr) (macro_ : option nat) (chain : list nat) :
  scope_chain BLOCKS parent_ chain ->
  exists BLOCKS',
    add_block true BLOCKS parent_ func_ macro_ = Ret (Some (length BLOCKS), BLOCKS') /\
    (forall i blk, BLOCKS !! i = Some blk -> BLOCKS' !! i = Some blk) /\
    BLOCKS' !! length BLOCKS
      = Some {| parent := parent_; func := func_; macro := macro_; locals := [] |} /\
    length BLOCKS' = S (length BLOCKS) /\
    scope_chain BLOCKS' (Some (length BLOCKS)) (length BLOCKS :: chain).
Proof.
  intros Hchain. eexists. split; [reflexivity |].
  assert (Hnew : (BLOCKS ++ [{| parent := parent_; func := func_; macro := macro_;
                               locals := [] |}]) !! length BLOCKS
                 = Some {| parent := parent_; func := func_; macro := macro_;
                           locals := [] |}).
  { rewrite lookup_app_r by lia. now rewrite Nat.sub_diag. }
  split; [intros i blk Hi; apply lookup_app_l_Some, Hi |].
  split; [exact Hnew |].
  split; [rewrite length_app; simpl; lia |].
  econstructor; [exact Hnew |]. apply scope_chain_app, Hchain.
Qed.

Lemma add_block_chain_witness :
  scope_chain nested_blocks (Some 2%nat) [2; 1]%nat /\
  exists BLOCKS',
    add_block true nested_blocks (Some 2%nat) (Some 0%nat) None
      = Ret (Some (length nested_blocks), BLOCKS') /\
    (forall i blk, nested_blocks !! i = Some blk -> BLOCKS' !! i = Some blk) /\
    BLOCKS' !! length nested_blocks
      = Some {| parent := Some 2%nat; func := Some 0%nat; macro := None;
                locals := [] |} /\
    length BLOCKS' = S (length nested_blocks) /\
    scope_chain BLOCKS' (Some (length nested_blocks)) (length nested_blocks :: [2; 1]%nat).
Proof.
  assert (Hchain : scope_chain nested_blocks (Some 2%nat) [2; 1]%nat).
  { eapply scope_chain_step; [reflexivity |].
    eapply scope_chain_step; [reflexivity |]. apply scope_chain_end. }
  split; [exact Hchain |].
  exact (add_block_chain nested_blocks (Some 2%nat) (Some 0%nat) None [2; 1]%nat Hchain).
Defined.

(** The walk does not see blocks added behind the blocks of the chain. *)
Lemma find_in_blocks_app BLOCKS more token block chain :
  scope_chain BLOCKS block chain ->
  forall fuel,
    find_in_blocks fuel (BLOCKS ++ more) token block
    = find_in_blocks fuel BLOCKS token block.
Proof.
  induction 1 as [| b blk rest Hb _ IH]; intros fuel.
  - destruct fuel; reflexivity.
  - destruct fuel as [| fuel]; [reflexivity |].
    simpl. rewrite (lookup_app_l_Some _ _ _ _ Hb), Hb, !bind_Ret.
    destruct (scan_vars (locals blk) token); [reflexivity | apply IH].
Qed.

Lemma find_global_var_app BLOCKS more token :
  BLOCKS <> [] ->
  find_global_var (BLOCKS ++ more) token = find_global_var BLOCKS token.
Proof.
  destruct BLOCKS as [| g BLOCKS]; [congruence | reflexivity].
Qed.

(** X17. In a block just added to a parent block for the same function,
    [find_var] returns what it returns in the parent. *)
Theorem find_var_new_block (fuel : nat) (funcs : gmap nat func_t)
    (BLOCKS : list block_t) (token : string) (p : nat) (pblk : block_t)
    (chain : list nat) (macro_ : option nat) :
  BLOCKS !! p = Some pblk ->
  scope_chain BLOCKS (Some p) chain ->
  exists b BLOCKS',
    add_block true BLOCKS (Some p) (func pblk) macro_ = Ret (Some b, BLOCKS') /\
    find_var (S fuel) funcs BLOCKS' token (Some b)
    = find_var fuel funcs BLOCKS token (Some p).
Proof.
  intros Hp Hchain. eexists _, _. split; [reflexivity |].
  assert (Hne : BLOCKS <> []) by (intros ->; rewrite lookup_nil in Hp; discriminate).
  unfold find_var, find_local_var, deref.
  rewrite lookup_app_r by lia. rewrite Nat.sub_diag. cbn [lookup list_lookup].
  rewrite Hp, !bind_Ret. cbn [func].
  simpl find_in_blocks. rewrite lookup_app_r by lia. rewrite Nat.sub_diag.
  cbn [lookup list_lookup]. rewrite bind_Ret. cbn [locals parent scan_vars scan_vars_from].
  rewrite (find_in_blocks_app _ _ _ _ _ Hchain), find_global_var_app by exact Hne.
  reflexivity.
Qed.

Lemma find_var_new_block_witness :
  nested_blocks !! 2%nat = Some {| parent := Some 1%nat; func := Some 0%nat;
                                   macro := None;
                                   locals := [int_var "b"%string; int_var "x"%string] |} /\
  scope_chain nested_blocks (Some 2%nat) [2; 1]%nat /\
  exists b BLOCKS',
    add_block true nested_blocks (Some 2%nat) (Some 0%nat) None = Ret (Some b, BLOCKS') /\
    find_var 3 one_func BLOCKS' "x"%string (Some b)
    = find_var 2 one_func nested_blocks "x"%string (Some 2%nat).
Proof.
  assert (Hchain : scope_chain nested_blocks (Some 2%nat) [2; 1]%nat).
  { eapply scope_chain_step; [reflexivity |].
    eapply scope_chain_step; [reflexivity |]. apply scope_chain_end. }
  split; [reflexivity |]. split; [exact Hchain |].
  exact (find_var_new_block 2 one_func nested_blocks "x"%string 2 _ [2; 1]%nat None
           eq_refl Hchain).
Defined.

Lemma find_in_blocks_none BLOCKS token block chain :
  scope_chain BLOCKS block chain ->
  (forall b blk, b ∈ chain -> BLOCKS !! b = Some blk ->
                 scan_vars (locals blk) token = None) ->
  forall fuel, (length chain <= fuel)%nat ->
    find_in_blocks fuel BLOCKS token block = Ret None.
Proof.
  induction 1 as [| b blk rest Hb _ IH]; intros Hnone fuel Hfuel.
  - destruct fuel; reflexivity.
  - destruct fuel as [| fuel]; [simpl in Hfuel; lia |].
    simpl. rewrite Hb, bind_Ret.
    rewrite (Hnone b blk) by (first [left | exact Hb]).
    apply IH; [| simpl in Hfuel; lia].
    intros b' blk' Hin. apply Hnone. right. exact Hin.
Qed.

(** X18. When no block of the scope chain declares the token, a parameter
    of the function of the block that has the name is returned, whatever
    the global block declares; when no parameter has the name either
    (or the block has no function), the result is that of the lookup
    among the globals. *)
Theorem find_var_param_or_global (fuel : nat) (funcs : gmap nat func_t)
    (BLOCKS : list block_t) (token : string) (b : nat) (blk : block_t)
    (chain : list nat) :
  BLOCKS !! b = Some blk ->
  scope_chain BLOCKS (Some b) chain ->
  (length chain <= fuel)%nat ->
  (forall b' blk', b' ∈ chain -> BLOCKS !! b' = Some blk' ->
                   scan_vars (locals blk') token = None) ->
  (forall l f i, func blk = Some l -> funcs !! l = Some f ->
                 scan_vars (param_defs f) token = Some i ->
                 find_var fuel funcs BLOCKS token (Some b) = Ret (Some (ParamRef l i))) /\
  (forall l f, func blk = Some l -> funcs !! l = Some f ->
               scan_vars (param_defs f) token = None ->
               find_var fuel funcs BLOCKS token (Some b) = find_global_var BLOCKS token) /\
  (func blk = None ->
   find_var fuel funcs BLOCKS token (Some b) = find_global_var BLOCKS token).
Proof.
  intros Hb Hchain Hfuel Hnone.
  pose proof (find_in_blocks_none _ _ _ _ Hchain Hnone fuel Hfuel) as Hwalk.
  unfold find_var, find_local_var, deref. rewrite Hb, bind_Ret, Hwalk, bind_Ret.
  split; [| split].
  - intros l f i Hl Hf Hi. rewrite Hl. unfold load. rewrite Hf, !bind_Ret, Hi.
    reflexivity.
  - intros l f Hl Hf Hi. rewrite Hl. unfold load. rewrite Hf, !bind_Ret, Hi.
    reflexivity.
  - intros Hl. rewrite Hl, bind_Ret. reflexivity.
Qed.

Lemma find_var_param_or_global_witness :
  find_var 2 one_func nested_blocks "n"%string (Some 2%nat) = Ret (Some (ParamRef 0 0)).
Proof.
  assert (Hchain : scope_chain nested_blocks (Some 2%nat) [2; 1]%nat).
  { eapply scope_chain_step; [reflexivity |].
    eapply scope_chain_step; [reflexivity |]. apply scope_chain_end. }
  assert (Hnone : forall b' blk', b' ∈ [2; 1]%nat -> nested_blocks !! b' = Some blk' ->
                                  scan_vars (locals blk') "n"%string = None).
  { intros b' blk' Hin Hb'.
    apply elem_of_cons in Hin. destruct Hin as [-> | Hin];
      [injection Hb' as <-; reflexivity |].
    apply elem_of_cons in Hin. destruct Hin as [-> | Hin];
      [injection Hb' as <-; reflexivity |].
    apply elem_of_nil in Hin. destruct Hin. }
  refine (proj1 (find_var_param_or_global 2 one_func nested_blocks "n"%string 2 _ [2; 1]%nat
                   eq_refl Hchain _ Hnone) 0%nat
                {| return_def := int_var "f"%string; param_defs := [int_var "n"%string];
                   stack_size := 4 |} 0%nat eq_refl _ eq_refl).
  - simpl. lia.
  - apply lookup_singleton_eq.
Defined.

(** ** Basic blocks: [bb_create], [bb_connect], [bb_disconnect] *)

Lemma first_empty_slot_first slots i :
  (occupied slots < length slots)%nat ->
  exists n c,
    first_empty_slot slots i = Ret (i + Z.of_nat n) /\
    slots !! n = Some c /\ bb c = None /\
    forall j c', (j < n)%nat -> slots !! j = Some c' -> bb c' <> None.
Proof.
  unfold occupied. revert i. induction slots as [| c slots IH]; intros i Hocc.
  - simpl in Hocc. lia.
  - simpl. destruct (bb c) as [q |] eqn:Hc.
    + rewrite filter_cons_True in Hocc by congruence. simpl in Hocc.
      destruct (IH (i + 1) ltac:(lia)) as (n & c0 & Hscan & Hn & Hc0 & Hfirst).
      exists (S n), c0. rewrite Hscan. split; [f_equal; lia |].
      split; [exact Hn |]. split; [exact Hc0 |].
      intros [| j] c' Hlt Hj; [injection Hj as <-; congruence |].
      apply (Hfirst j c'); [lia | exact Hj].
    + exists 0%nat, c. rewrite Z.add_0_r. split; [reflexivity |].
      split; [reflexivity |]. split; [exact Hc |]. intros j c' Hlt. lia.
Qed.

Lemma occupied_app l1 l2 : occupied (l1 ++ l2) = (occupied l1 + occupied l2)%nat.
Proof. unfold occupied. now rewrite filter_app, length_app. Qed.

Lemma occupied_insert slots n c (c' : bb_connection_t) :
  slots !! n = Some c ->
  (occupied (<[n := c']> slots) + occupied [c] = occupied slots + occupied [c'])%nat.
Proof.
  intros Hn. pose proof (lookup_lt_Some _ _ _ Hn) as Hlt.
  rewrite insert_take_drop by exact Hlt.
  rewrite <- (take_drop_middle slots n c Hn) at 3.
  change (c' :: drop (S n) slots) with ([c'] ++ drop (S n) slots).
  change (c :: drop (S n) slots) with ([c] ++ drop (S n) slots).
  rewrite !occupied_app. lia.
Qed.

Lemma occupied_one_empty c : bb c = None -> occupied [c] = 0%nat.
Proof.
  intros Hc. unfold occupied. rewrite filter_cons_False by congruence. reflexivity.
Qed.

Lemma occupied_one_full c : bb c <> None -> occupied [c] = 1%nat.
Proof.
  intros Hc. unfold occupied. rewrite filter_cons_True by exact Hc. reflexivity.
Qed.

(** The heap that a successful [bb_connect] returns. *)
Lemma bb_connect_Ret h p s k pb sb :
  h !! p = Some pb -> h !! s = Some sb ->
  length (prev sb) = Z.to_nat MAX_BB_PRED ->
  (occupied (prev sb) < Z.to_nat MAX_BB_PRED)%nat ->
  exists n c,
    prev sb !! n = Some c /\ bb c = None /\
    bb_connect h (Some p) (Some s) k
    = Ret (<[p := set_successor
                    (if decide (p = s)
                     then set_prev sb (<[n := {| bb := Some p; type := k |}]> (prev sb))
                     else pb) k (Some s)]>
             (<[s := set_prev sb (<[n := {| bb := Some p; type := k |}]> (prev sb))]> h)).
Proof.
  intros Hp Hs Hlen Hocc.
  assert (Hsix : Z.to_nat MAX_BB_PRED = 6%nat) by reflexivity.
  destruct (first_empty_slot_Ret (prev sb) 0 ltac:(lia)) as (n & c & Hscan & Hn & Hc).
  pose proof (lookup_lt_Some _ _ _ Hn) as Hlt.
  exists n, c. split; [exact Hn |]. split; [exact Hc |].
  rewrite Z.add_0_l in Hscan.
  unfold bb_connect, load. rewrite Hs, bind_Ret, Hscan, bind_Ret.
  destruct (Z.gtb_spec (Z.of_nat n) (MAX_BB_PRED - 1)) as [Hbig | _];
    [unfold MAX_BB_PRED in Hbig; lia |].
  rewrite array_set_Ret by lia. rewrite bind_Ret, Nat2Z.id.
  destruct (decide (p = s)) as [-> | Hne].
  - rewrite lookup_insert_eq, bind_Ret. reflexivity.
  - rewrite lookup_insert_ne by congruence. rewrite Hp, bind_Ret. reflexivity.
Qed.

(** X19. A successful [bb_connect] occupies exactly one more slot of the
    successor, keeps the size of its slot array, allocates nothing, and
    leaves every block other than the two unchanged. *)
Theorem bb_connect_occupied (h : bb_heap) (p s : nat) (k : bb_connection_type_t)
    (pb sb : basic_block_t) :
  h !! p = Some pb -> h !! s = Some sb ->
  length (prev sb) = Z.to_nat MAX_BB_PRED ->
  (occupied (prev sb) < Z.to_nat MAX_BB_PRED)%nat ->
  exists h' sb',
    bb_connect h (Some p) (Some s) k = Ret h' /\
    h' !! s = Some sb' /\
    occupied (prev sb') = S (occupied (prev sb)) /\
    length (prev sb') = Z.to_nat MAX_BB_PRED /\
    dom h' = dom h /\
    forall l, l <> p -> l <> s -> h' !! l = h !! l.
Proof.
  intros Hp Hs Hlen Hocc.
  destruct (bb_connect_Ret h p s k pb sb Hp Hs Hlen Hocc) as (n & c & Hn & Hc & Hret).
  pose proof (occupied_insert (prev sb) n c {| bb := Some p; type := k |} Hn) as Hins.
  rewrite (occupied_one_empty c Hc), occupied_one_full in Hins by discriminate.
  assert (Hocc' : occupied (<[n := {| bb := Some p; type := k |}]> (prev sb))
                  = S (occupied (prev sb))) by lia.
  assert (Hs' : exists sb',
    (<[p := set_successor
             (if decide (p = s)
              then set_prev sb (<[n := {| bb := Some p; type := k |}]> (prev sb))
              else pb) k (Some s)]>
       (<[s := set_prev sb (<[n := {| bb := Some p; type := k |}]> (prev sb))]> h))
      !! s = Some sb' /\
    prev sb' = <[n := {| bb := Some p; type := k |}]> (prev sb)).
  { destruct (decide (p = s)) as [-> | Hne].
    - eexists. rewrite lookup_insert_eq. split; [reflexivity |].
      apply prev_set_successor.
    - eexists. rewrite lookup_insert_ne by exact Hne. rewrite lookup_insert_eq.
      split; reflexivity. }
  destruct Hs' as (sb' & Hsb' & Hprev).
  eexists _, sb'. split; [exact Hret |]. split; [exact Hsb' |].
  rewrite Hprev. split; [exact Hocc' |].
  split; [rewrite length_insert; exact Hlen |]. split.
  - rewrite dom_insert_lookup_L
      by (apply lookup_insert_is_Some'; right; exists pb; exact Hp).
    apply dom_insert_lookup_L. exists sb. exact Hs.
  - intros l Hlp Hls. rewrite !lookup_insert_ne by congruence. reflexivity.
Qed.

Lemma two_fresh_lookup_0 :
  ({[ 0%nat := fresh_bb; 1%nat := fresh_bb ]} : bb_heap) !! 0%nat = Some fresh_bb.
Proof. reflexivity. Qed.

Lemma two_fresh_lookup_1 :
  ({[ 0%nat := fresh_bb; 1%nat := fresh_bb ]} : bb_heap) !! 1%nat = Some fresh_bb.
Proof. reflexivity. Qed.

Lemma fresh_bb_free : (occupied (prev fresh_bb) < Z.to_nat MAX_BB_PRED)%nat.
Proof. vm_compute. lia. Qed.

Lemma bb_connect_occupied_witness :
  exists h' sb',
    bb_connect {[ 0%nat := fresh_bb; 1%nat := fresh_bb ]} (Some 0%nat) (Some 1%nat) THEN
      = Ret h' /\
    h' !! 1%nat = Some sb' /\
    occupied (prev sb') = S (occupied (prev fresh_bb)) /\
    length (prev sb') = Z.to_nat MAX_BB_PRED /\
    dom h' = dom ({[ 0%nat := fresh_bb; 1%nat := fresh_bb ]} : bb_heap) /\
    forall l, l <> 0%nat -> l <> 1%nat ->
              h' !! l = ({[ 0%nat := fresh_bb; 1%nat := fresh_bb ]} : bb_heap) !! l.
Proof.
  exact (bb_connect_occupied {[ 0%nat := fresh_bb; 1%nat := fresh_bb ]} 0 1 THEN
           fresh_bb fresh_bb two_fresh_lookup_0 two_fresh_lookup_1 eq_refl fresh_bb_free).
Defined.

(** The loop of [bb_disconnect] passes the slots that do not hold [pred]
    and stops at the first slot that does. *)
Lemma bb_disconnect_from_skip h pred s sb n i :
  h !! s = Some sb ->
  (i + n <= length (prev sb))%nat ->
  (forall j c, (i <= j < i + n)%nat -> prev sb !! j = Some c -> bb c <> pred) ->
  bb_disconnect_from n (Z.of_nat i) h pred (Some s) = Ret h.
Proof.
  intros Hs. revert i. induction n as [| n IH]; intros i Hlen Hnone; [reflexivity |].
  simpl. rewrite Hs, bind_Ret.
  destruct (array_get_Ret (prev sb) (Z.of_nat i) ltac:(lia)) as (c & Hc & Hget).
  rewrite Nat2Z.id in Hc. rewrite Hget, bind_Ret.
  rewrite bool_decide_eq_false_2 by (apply (Hnone i c); [lia | exact Hc]).
  replace (Z.of_nat i + 1) with (Z.of_nat (S i)) by lia.
  apply IH; [lia |]. intros j c' Hj. apply Hnone. lia.
Qed.

Lemma bb_disconnect_from_hit h pred s sb n i j c :
  h !! s = Some sb ->
  prev sb !! j = Some c -> bb c = pred ->
  (i <= j < i + n)%nat ->
  (forall j' c', (i <= j' < j)%nat -> prev sb !! j' = Some c' -> bb c' <> pred) ->
  bb_disconnect_from n (Z.of_nat i) h pred (Some s)
  = disconnect_at h pred (Some s) (Z.of_nat j) c.
Proof.
  intros Hs Hj Hc. revert i. induction n as [| n IH]; intros i Hij Hfirst; [lia |].
  pose proof (lookup_lt_Some _ _ _ Hj) as Hlt.
  simpl. rewrite Hs, bind_Ret.
  destruct (array_get_Ret (prev sb) (Z.of_nat i) ltac:(lia)) as (c0 & Hc0 & Hget).
  rewrite Nat2Z.id in Hc0. rewrite Hget, bind_Ret.
  destruct (decide (i = j)) as [-> | Hne].
  - rewrite Hj in Hc0. injection Hc0 as <-.
    rewrite bool_decide_eq_true_2 by exact Hc. reflexivity.
  - rewrite bool_decide_eq_false_2 by (apply (Hfirst i c0); [lia | exact Hc0]).
    replace (Z.of_nat i + 1) with (Z.of_nat (S i)) by lia.
    apply IH; [lia |]. intros j' c' Hj'. apply Hfirst. lia.
Qed.

(** X20. [bb_disconnect(pred, succ)] changes nothing when no predecessor
    slot of [succ] holds [pred]. *)
Theorem bb_disconnect_absent (h : bb_heap) (pred : ptr) (s : nat)
    (sb : basic_block_t) :
  h !! s = Some sb ->
  length (prev sb) = Z.to_nat MAX_BB_PRED ->
  (forall c, c ∈ prev sb -> bb c <> pred) ->
  bb_disconnect h pred (Some s) = Ret h.
Proof.
  intros Hs Hlen Hnone. unfold bb_disconnect.
  apply (bb_disconnect_from_skip h pred s sb _ 0 Hs); [lia |].
  intros j c _ Hj. apply Hnone. eapply list_elem_of_lookup_2, Hj.
Qed.

Lemma bb_disconnect_absent_witness :
  bb_disconnect {[ 0%nat := fresh_bb; 1%nat := full_bb ]} (Some 0%nat) (Some 1%nat)
    = Ret {[ 0%nat := fresh_bb; 1%nat := full_bb ]}.
Proof.
  apply (bb_disconnect_absent {[ 0%nat := fresh_bb; 1%nat := full_bb ]} (Some 0%nat) 1
           full_bb).
  - reflexivity.
  - reflexivity.
  - intros c Hc. simpl in Hc.
    repeat (apply elem_of_cons in Hc; destruct Hc as [-> | Hc]; [discriminate |]).
    apply elem_of_nil in Hc. destruct Hc.
Defined.

(** X21. [bb_disconnect] with a null [pred] takes the first empty slot of
    [succ] for the slot of [pred] and stores through the null pointer:
    on a block with a free slot the call is a null dereference. *)
Theorem bb_disconnect_null_pred (h : bb_heap) (s : nat) (sb : basic_block_t) :
  h !! s = Some sb ->
  length (prev sb) = Z.to_nat MAX_BB_PRED ->
  (occupied (prev sb) < Z.to_nat MAX_BB_PRED)%nat ->
  bb_disconnect h None (Some s) = Fault NullDeref.
Proof.
  intros Hs Hlen Hocc.
  destruct (first_empty_slot_first (prev sb) 0 ltac:(lia))
    as (n & c & _ & Hn & Hc & Hfirst).
  pose proof (lookup_lt_Some _ _ _ Hn) as Hlt.
  unfold bb_disconnect.
  rewrite (bb_disconnect_from_hit h None s sb _ 0 n c Hs Hn Hc) by
    (first [lia | intros j' c' Hj'; apply Hfirst; lia]).
  reflexivity.
Qed.

Lemma bb_disconnect_null_pred_witness :
  bb_disconnect {[ 0%nat := fresh_bb; 1%nat := fresh_bb ]} None (Some 1%nat)
    = Fault NullDeref.
Proof.
  exact (bb_disconnect_null_pred {[ 0%nat := fresh_bb; 1%nat := fresh_bb ]} 1 fresh_bb
           two_fresh_lookup_1 eq_refl fresh_bb_free).
Defined.

Lemma successor_set_prev b slots k : successor (set_prev b slots) k = successor b k.
Proof. destruct k; reflexivity. Qed.

(** X22. [bb_connect(p, s, k)] followed by [bb_disconnect(p, s)], under
    the conditions of a successful connection without an earlier edge
    from [p]: afterwards no predecessor slot of [s] holds [p], the
    successor member of [p] selected by [k] is null, [s] has as many
    occupied slots as before the connection, and every other block is
    unchanged. *)
Theorem bb_connect_disconnect (h : bb_heap) (p s : nat) (k : bb_connection_type_t)
    (pb sb : basic_block_t) :
  h !! p = Some pb -> h !! s = Some sb ->
  length (prev sb) = Z.to_nat MAX_BB_PRED ->
  (occupied (prev sb) < Z.to_nat MAX_BB_PRED)%nat ->
  (forall c, c ∈ prev sb -> bb c <> Some p) ->
  exists h1 h2 pb2 sb2,
    bb_connect h (Some p) (Some s) k = Ret h1 /\
    bb_disconnect h1 (Some p) (Some s) = Ret h2 /\
    h2 !! p = Some pb2 /\ h2 !! s = Some sb2 /\
    successor pb2 k = None /\
    (forall c, c ∈ prev sb2 -> bb c <> Some p) /\
    occupied (prev sb2) = occupied (prev sb) /\
    (forall l, l <> p -> l <> s -> h2 !! l = h !! l).
Proof.
  intros Hp Hs Hlen Hocc Hnone.
  destruct (bb_connect_Ret h p s k pb sb Hp Hs Hlen Hocc) as (n & c & Hn & Hc & Hret).
  pose proof (lookup_lt_Some _ _ _ Hn) as Hlt.
  set (conn := {| bb := Some p; type := k |}) in *.
  set (slots1 := <[n := conn]> (prev sb)) in *.
  set (P1 := set_successor (if decide (p = s) then set_prev sb slots1 else pb)
                           k (Some s)) in *.
  set (h1 := <[p := P1]> (<[s := set_prev sb slots1]> h)) in *.
  assert (Hp1 : h1 !! p = Some P1) by apply lookup_insert_eq.
  assert (Hs1 : exists sb1, h1 !! s = Some sb1 /\ prev sb1 = slots1).
  { unfold h1, P1. destruct (decide (p = s)) as [-> | Hne].
    - eexists. rewrite lookup_insert_eq. split; [reflexivity |].
      apply prev_set_successor.
    - eexists. rewrite lookup_insert_ne by exact Hne. rewrite lookup_insert_eq.
      split; reflexivity. }
  destruct Hs1 as (sb1 & Hs1 & Hprev1).
  assert (Hslot : prev sb1 !! n = Some conn).
  { rewrite Hprev1. apply list_lookup_insert_eq, Hlt. }
  assert (Hdis : bb_disconnect h1 (Some p) (Some s)
                 = disconnect_at h1 (Some p) (Some s) (Z.of_nat n) conn).
  { unfold bb_disconnect.
    apply (bb_disconnect_from_hit h1 (Some p) s sb1 _ 0 n conn Hs1 Hslot eq_refl).
    - rewrite Hprev1 in Hslot. apply lookup_lt_Some in Hslot.
      unfold slots1 in Hslot. rewrite length_insert in Hslot. lia.
    - intros j' c' Hj' Hc'. rewrite Hprev1 in Hc'. unfold slots1 in Hc'.
      rewrite list_lookup_insert_ne in Hc' by lia.
      apply Hnone. eapply list_elem_of_lookup_2, Hc'. }
  set (P2 := set_successor P1 k None).
  set (h2 := <[p := P2]> h1).
  assert (Hs2 : exists sb2, h2 !! s = Some sb2 /\ prev sb2 = slots1 /\
                            successor sb2 k = if decide (p = s) then None
                                              else successor sb1 k).
  { unfold h2. destruct (decide (p = s)) as [-> | Hne].
    - eexists. rewrite lookup_insert_eq. split; [reflexivity |].
      unfold P2, P1. rewrite !prev_set_successor, successor_set_successor.
      split; [| reflexivity]. try rewrite decide_True by reflexivity.
      reflexivity.
    - exists sb1. rewrite lookup_insert_ne by exact Hne.
      split; [exact Hs1 |]. split; [exact Hprev1 | reflexivity]. }
  destruct Hs2 as (sb2 & Hs2 & Hprev2 & Hsucc2).
  set (slots2 := <[n := {| bb := None; type := k |}]> slots1).
  assert (Hat : disconnect_at h1 (Some p) (Some s) (Z.of_nat n) conn
                = Ret (<[s := set_prev sb2 slots2]> h2)).
  { unfold disconnect_at, load. rewrite Hp1, bind_Ret.
    change (type conn) with k.
    change (<[p := set_successor P1 k None]> h1) with h2.
    rewrite Hs2, bind_Ret.
    rewrite array_set_Ret
      by (rewrite Hprev2; unfold slots1; rewrite length_insert; lia).
    rewrite bind_Ret, Nat2Z.id, Hprev2. reflexivity. }
  assert (Hslots2 : slots2 = <[n := {| bb := None; type := k |}]> (prev sb)).
  { unfold slots2, slots1. apply list_insert_insert_eq. }
  assert (Hp2 : exists pb2, (<[s := set_prev sb2 slots2]> h2) !! p = Some pb2 /\
                            successor pb2 k = None).
  { destruct (decide (p = s)) as [Heq | Hne].
    - exists (set_prev sb2 slots2). rewrite Heq at 1.
      split; [apply lookup_insert_eq |].
      rewrite successor_set_prev. exact Hsucc2.
    - exists P2. rewrite lookup_insert_ne by congruence.
      split; [apply lookup_insert_eq | apply successor_set_successor]. }
  destruct Hp2 as (pb2 & Hp2 & Hsuccp).
  exists h1, (<[s := set_prev sb2 slots2]> h2), pb2, (set_prev sb2 slots2).
  split; [exact Hret |]. split; [rewrite Hdis; exact Hat |].
  split; [exact Hp2 |]. split; [apply lookup_insert_eq |].
  split; [exact Hsuccp |].
  cbn [prev set_prev]. split; [| split].
  - intros c0 Hc0. rewrite Hslots2 in Hc0.
    apply list_elem_of_lookup in Hc0. destruct Hc0 as (j & Hj).
    destruct (decide (j = n)) as [-> | Hjn].
    + rewrite list_lookup_insert_eq in Hj by exact Hlt. injection Hj as <-. discriminate.
    + rewrite list_lookup_insert_ne in Hj by congruence.
      apply Hnone. eapply list_elem_of_lookup_2, Hj.
  - rewrite Hslots2.
    pose proof (occupied_insert (prev sb) n c {| bb := None; type := k |} Hn) as Hins.
    rewrite (occupied_one_empty c Hc), occupied_one_empty in Hins by reflexivity. lia.
  - intros l Hlp Hls. unfold h2, h1. rewrite !lookup_insert_ne by congruence.
    reflexivity.
Qed.

Lemma fresh_bb_no_pred (p : nat) c : c ∈ prev fresh_bb -> bb c <> Some p.
Proof.
  intros Hc. apply elem_of_replicate in Hc. destruct Hc as [-> _]. discriminate.
Qed.

Lemma bb_connect_disconnect_witness :
  exists h1 h2 pb2 sb2,
    bb_connect {[ 0%nat := fresh_bb; 1%nat := fresh_bb ]} (Some 0%nat) (Some 1%nat) THEN
      = Ret h1 /\
    bb_disconnect h1 (Some 0%nat) (Some 1%nat) = Ret h2 /\
    h2 !! 0%nat = Some pb2 /\ h2 !! 1%nat = Some sb2 /\
    successor pb2 THEN = None /\
    (forall c, c ∈ prev sb2 -> bb c <> Some 0%nat) /\
    occupied (prev sb2) = occupied (prev fresh_bb) /\
    (forall l, l <> 0%nat -> l <> 1%nat ->
               h2 !! l = ({[ 0%nat := fresh_bb; 1%nat := fresh_bb ]} : bb_heap) !! l).
Proof.
  exact (bb_connect_disconnect {[ 0%nat := fresh_bb; 1%nat := fresh_bb ]} 0 1 THEN
           fresh_bb fresh_bb two_fresh_lookup_0 two_fresh_lookup_1 eq_refl
           fresh_bb_free (fresh_bb_no_pred 0)).
Defined.

(** X23. [bb_connect] does not look at the successor member that it
    overwrites: after [bb_connect(p, s1, k)] and [bb_connect(p, s2, k)]
    for three different blocks, the member of [p] selected by [k] is
    [s2], and [s1] still holds the edge [(p, k)] in a predecessor slot. *)
Theorem bb_connect_twice (h : bb_heap) (p s1 s2 : nat) (k : bb_connection_type_t)
    (pb sb1 sb2 : basic_block_t) :
  p <> s1 -> p <> s2 -> s1 <> s2 ->
  h !! p = Some pb -> h !! s1 = Some sb1 -> h !! s2 = Some sb2 ->
  length (prev sb1) = Z.to_nat MAX_BB_PRED ->
  length (prev sb2) = Z.to_nat MAX_BB_PRED ->
  (occupied (prev sb1) < Z.to_nat MAX_BB_PRED)%nat ->
  (occupied (prev sb2) < Z.to_nat MAX_BB_PRED)%nat ->
  exists h1 h2 pb' sb1',
    bb_connect h (Some p) (Some s1) k = Ret h1 /\
    bb_connect h1 (Some p) (Some s2) k = Ret h2 /\
    h2 !! p = Some pb' /\ successor pb' k = Some s2 /\
    h2 !! s1 = Some sb1' /\ {| bb := Some p; type := k |} ∈ prev sb1'.
Proof.
  intros Hps1 Hps2 Hs12 Hp Hs1 Hs2 Hlen1 Hlen2 Hocc1 Hocc2.
  destruct (bb_connect_Ret h p s1 k pb sb1 Hp Hs1 Hlen1 Hocc1)
    as (n1 & c1 & Hn1 & _ & Hret1).
  rewrite decide_False in Hret1 by exact Hps1.
  eexists _. rewrite Hret1.
  match goal with |- context [Ret ?x] => set (h1 := x) end.
  assert (Hp1 : h1 !! p = Some (set_successor pb k (Some s1)))
    by apply lookup_insert_eq.
  assert (Hs21 : h1 !! s2 = Some sb2).
  { unfold h1. rewrite !lookup_insert_ne by congruence. exact Hs2. }
  destruct (bb_connect_Ret h1 p s2 k _ sb2 Hp1 Hs21 Hlen2 Hocc2)
    as (n2 & c2 & _ & _ & Hret2).
  rewrite decide_False in Hret2 by exact Hps2.
  eexists _, _, _. split; [reflexivity |]. split; [exact Hret2 |].
  split; [apply lookup_insert_eq |]. split; [apply successor_set_successor |].
  split.
  - rewrite !lookup_insert_ne by congruence. unfold h1.
    rewrite lookup_insert_ne by congruence. apply lookup_insert_eq.
  - cbn [prev set_prev]. eapply list_elem_of_lookup_2.
    apply list_lookup_insert_eq. eapply lookup_lt_Some, Hn1.
Qed.

Lemma bb_connect_twice_witness :
  exists h1 h2 pb' sb1',
    bb_connect {[ 0%nat := fresh_bb; 1%nat := fresh_bb; 2%nat := fresh_bb ]}
      (Some 0%nat) (Some 1%nat) NEXT = Ret h1 /\
    bb_connect h1 (Some 0%nat) (Some 2%nat) NEXT = Ret h2 /\
    h2 !! 0%nat = Some pb' /\ successor pb' NEXT = Some 2%nat /\
    h2 !! 1%nat = Some sb1' /\ {| bb := Some 0%nat; type := NEXT |} ∈ prev sb1'.
Proof.
  apply (bb_connect_twice
           {[ 0%nat := fresh_bb; 1%nat := fresh_bb; 2%nat := fresh_bb ]}
           0 1 2 NEXT fresh_bb fresh_bb fresh_bb);
    first [ discriminate | reflexivity | exact fresh_bb_free ].
Defined.

(** X24. [bb_create] for a block with a function returns a block that was
    not in use, with every predecessor slot empty, and leaves the other
    basic blocks as they are; a first [bb_connect] into the new block
    takes the slot 0.  For a block without a function (as the global
    block), [bb_create] is a null dereference, at [parent->func->fn]. *)
Theorem bb_create_connect (funcs : gmap nat func_t) (BLOCKS : list block_t)
    (h : bb_heap) (b : nat) (blk : block_t) (p : nat) (pb : basic_block_t)
    (k : bb_connection_type_t) :
  BLOCKS !! b = Some blk -> h !! p = Some pb ->
  (func blk = None ->
   bb_create true funcs BLOCKS h (Some b) = Fault NullDeref) /\
  (forall l f, func blk = Some l -> funcs !! l = Some f ->
   exists new h1 h2 nb pb',
     bb_create true funcs BLOCKS h (Some b) = Ret (Some new, h1) /\
     h !! new = None /\
     (forall l, l <> new -> h1 !! l = h !! l) /\
     bb_connect h1 (Some p) (Some new) k = Ret h2 /\
     h2 !! new = Some nb /\
     prev nb !! 0%nat = Some {| bb := Some p; type := k |} /\
     occupied (prev nb) = 1%nat /\
     h2 !! p = Some pb' /\ successor pb' k = Some new).
Proof.
  intros Hb Hp. unfold bb_create, deref. rewrite Hb, bind_Ret. split.
  - intros ->. reflexivity.
  - intros l f -> Hf. unfold load. rewrite Hf, bind_Ret.
    set (new := fresh (dom h)).
    assert (Hnew : h !! new = None) by apply not_elem_of_dom, is_fresh.
    assert (Hpn : p <> new) by (intros ->; congruence).
    eexists new, _, _, _, _. split; [reflexivity |]. split; [exact Hnew |].
    split; [intros l' Hl'; apply lookup_insert_ne; congruence |].
    unfold bb_connect, load. rewrite lookup_insert_eq, bind_Ret.
    change (first_empty_slot (prev fresh_bb) 0) with (Ret 0 : outcome Z).
    rewrite bind_Ret. cbn [Z.gtb Z.compare MAX_BB_PRED Z.sub Z.add Z.opp Z.pos_sub].
    change (array_set (prev fresh_bb) 0 {| bb := Some p; type := k |})
      with (Ret (<[0%nat := {| bb := Some p; type := k |}]> (prev fresh_bb))
            : outcome (list bb_connection_t)).
    rewrite bind_Ret, lookup_insert_ne by congruence.
    rewrite lookup_insert_ne by congruence. rewrite Hp, bind_Ret.
    split; [reflexivity |].
    split; [rewrite lookup_insert_ne by congruence; apply lookup_insert_eq |].
    split; [reflexivity |]. split; [reflexivity |].
    split; [apply lookup_insert_eq | apply successor_set_successor].
Qed.

Lemma bb_create_connect_witness :
  exists new h1 h2 nb pb',
    bb_create true one_func nested_blocks {[ 0%nat := fresh_bb ]} (Some 1%nat)
      = Ret (Some new, h1) /\
    ({[ 0%nat := fresh_bb ]} : bb_heap) !! new = None /\
    (forall l, l <> new -> h1 !! l = ({[ 0%nat := fresh_bb ]} : bb_heap) !! l) /\
    bb_connect h1 (Some 0%nat) (Some new) NEXT = Ret h2 /\
    h2 !! new = Some nb /\
    prev nb !! 0%nat = Some {| bb := Some 0%nat; type := NEXT |} /\
    occupied (prev nb) = 1%nat /\
    h2 !! 0%nat = Some pb' /\ successor pb' NEXT = Some new.
Proof.
  refine (proj2 (bb_create_connect one_func nested_blocks {[ 0%nat := fresh_bb ]} 1
                   {| parent := None; func := Some 0%nat; macro := None;
                      locals := [int_var "a"%string] |} 0 fresh_bb NEXT eq_refl _)
                0%nat {| return_def := int_var "f"%string; param_defs := [int_var "n"%string];
                         stack_size := 4 |} eq_refl _).
  - apply lookup_singleton_eq.
  - apply lookup_singleton_eq.
Defined.

(** ** [add_symbol] *)

Lemma symbol_known_elem symbols var :
  symbol_known symbols var = true <-> var ∈ (sym_var <$> symbols).
Proof.
  unfold symbol_known. induction symbols as [| sym symbols IH]; simpl.
  - split; [discriminate | intros Hin; apply elem_of_nil in Hin; destruct Hin].
  - rewrite orb_true_iff, IH, elem_of_cons, bool_decide_eq_true.
    split; intros [Heq | Hin]; auto.
Qed.

Lemma symbol_known_app symbols var sym :
  symbol_known (symbols ++ [sym]) var
  = symbol_known symbols var || bool_decide (sym_var sym = var).
Proof.
  unfold symbol_known. rewrite existsb_app. simpl. now rewrite orb_false_r.
Qed.

(** X25. [add_symbol] is idempotent: a second call with the same variable
    finds it in the list and changes nothing, with or without memory. *)
Theorem add_symbol_twice (mem' : bool) (symbols : list symbol_t)
    (var : option var_ref) :
  exists symbols',
    add_symbol true (Some symbols) var = Ret (Some symbols') /\
    add_symbol mem' (Some symbols') var = Ret (Some symbols') /\
    var ∈ (sym_var <$> symbols').
Proof.
  unfold add_symbol. destruct (symbol_known symbols var) eqn:Hknown.
  - exists symbols. rewrite Hknown. split; [reflexivity |]. split; [reflexivity |].
    apply symbol_known_elem, Hknown.
  - destruct (last symbols) as [tail |] eqn:Hlast.
    + eexists. split; [reflexivity |].
      rewrite symbol_known_app. simpl sym_var.
      rewrite bool_decide_eq_true_2 by reflexivity. rewrite orb_true_r.
      split; [reflexivity |].
      rewrite fmap_app. apply elem_of_app. right. simpl. left.
    + eexists. split; [reflexivity |]. simpl.
      rewrite bool_decide_eq_true_2 by reflexivity. simpl.
      split; [reflexivity | left].
Qed.

(** X26. [add_symbol] keeps the symbol list free of duplicates and its
    indices dense: when the symbols carry the indices 0, 1, 2, ... and
    no variable occurs twice, the same holds after the call, and a new
    symbol gets the number of the symbols before it as its index. *)
Theorem add_symbol_dense (symbols symbols' : list symbol_t)
    (var : option var_ref) :
  dense symbols -> NoDup (sym_var <$> symbols) ->
  Z.of_nat (length symbols) <= Int.INT_MAX ->
  add_symbol true (Some symbols) var = Ret (Some symbols') ->
  dense symbols' /\ NoDup (sym_var <$> symbols') /\
  (symbols' = symbols \/
   symbols' = symbols ++ [{| sym_var := var;
                             sym_index := Z.of_nat (length symbols) |}]).
Proof.
  intros Hdense Hnodup Hlen. unfold add_symbol.
  destruct (symbol_known symbols var) eqn:Hknown.
  - intros [= <-]. split; [exact Hdense |]. split; [exact Hnodup | left; reflexivity].
  - assert (Hnew : var ∉ (sym_var <$> symbols)).
    { intros Hin. apply symbol_known_elem in Hin. congruence. }
    assert (Hindex : match last symbols with
                     | None => 0
                     | Some tail => Int.wrap (sym_index tail + 1)
                     end = Z.of_nat (length symbols)).
    { destruct (last symbols) as [tail |] eqn:Hlast.
      - rewrite last_lookup in Hlast. rewrite (Hdense _ _ Hlast).
        assert (length symbols <> 0)%nat
          by (intros Hz; rewrite Hz in Hlast; destruct symbols; discriminate).
        rewrite wrap_small by int_range. lia.
      - apply last_None in Hlast. subst symbols. reflexivity. }
    intros Hadd.
    assert (Hres : symbols' = symbols ++ [{| sym_var := var;
                                             sym_index := Z.of_nat (length symbols) |}]).
    { destruct (last symbols) as [tail |] eqn:Hlast.
      - injection Hadd as <-. rewrite Hindex. reflexivity.
      - apply last_None in Hlast. subst symbols. injection Hadd as <-. reflexivity. }
    subst symbols'. split; [| split; [| right; reflexivity]].
    + intros i sym Hi. destruct (decide (i < length symbols)%nat) as [Hlt | Hge].
      * rewrite lookup_app_l in Hi by exact Hlt. apply Hdense, Hi.
      * rewrite lookup_app_r in Hi by lia.
        destruct (i - length symbols)%nat as [| j] eqn:Hj; [| destruct j; discriminate].
        injection Hi as <-. simpl. lia.
    + rewrite fmap_app. apply NoDup_app. split; [exact Hnodup |].
      split; [| apply NoDup_singleton].
      intros x Hx Hx'. simpl in Hx'. apply list_elem_of_singleton in Hx'. subst x.
      contradiction.
Qed.

Lemma two_symbols_dense : dense two_symbols.
Proof.
  intros [| [| i]] sym Hi; try (injection Hi as <-; reflexivity); discriminate.
Qed.

Lemma two_symbols_nodup : NoDup (sym_var <$> two_symbols).
Proof.
  simpl. apply NoDup_cons. split.
  - intros Hin. apply list_elem_of_singleton in Hin. discriminate.
  - apply NoDup_singleton.
Qed.

Lemma add_symbol_dense_witness :
  dense (two_symbols ++ [{| sym_var := Some (ParamRef 0 0); sym_index := 2 |}]) /\
  NoDup (sym_var <$> (two_symbols ++
                      [{| sym_var := Some (ParamRef 0 0); sym_index := 2 |}])) /\
  (two_symbols ++ [{| sym_var := Some (ParamRef 0 0); sym_index := 2 |}] = two_symbols \/
   two_symbols ++ [{| sym_var := Some (ParamRef 0 0); sym_index := 2 |}]
   = two_symbols ++ [{| sym_var := Some (ParamRef 0 0);
                        sym_index := Z.of_nat (length two_symbols) |}]).
Proof.
  apply (add_symbol_dense two_symbols _ (Some (ParamRef 0 0))
           two_symbols_dense two_symbols_nodup).
  - simpl. int_range.
  - reflexivity.
Defined.

(** ** [find_member] and [size_var] *)

(** X27. [find_member] on a forward-declared typedef (size 0) looks up the
    members of its base structure: the result is that of the lookup in
    the structure itself, and the members of the typedef entry are not
    consulted.  When the type has size 0 and no base structure, the call
    is a null dereference. *)
Theorem find_member_forward (TYPES : list type_t) (FIELDS : list (list var_t))
    (token : string) (t : nat) (ty : type_t) :
  TYPES !! t = Some ty -> ty_size ty = 0 ->
  (base_struct ty = None ->
   find_member TYPES FIELDS token (Some t) = Fault NullDeref) /\
  (forall s sty, base_struct ty = Some s -> TYPES !! s = Some sty ->
                 ty_size sty <> 0 ->
   find_member TYPES FIELDS token (Some t)
   = find_member TYPES FIELDS token (Some s)).
Proof.
  intros Ht Hz. unfold find_member, deref. rewrite Ht, bind_Ret, Hz. simpl.
  split.
  - intros ->. reflexivity.
  - intros s sty -> Hs Hnz. rewrite Hs, !bind_Ret.
    destruct (Z.eqb_spec (ty_size sty) 0) as [? | _]; [contradiction |].
    rewrite Hs, bind_Ret. reflexivity.
Qed.

Example find_member_T_b :
  find_member fwd_types fwd_fields "b"%string (Some 1%nat) = Ret (Some (0%nat, 1%nat)).
Proof. reflexivity. Qed.

Lemma find_member_forward_witness :
  find_member fwd_types fwd_fields "b"%string (Some 1%nat)
  = find_member fwd_types fwd_fields "b"%string (Some 0%nat).
Proof.
  refine (proj2 (find_member_forward fwd_types fwd_fields "b"%string 1
                   {| type_name := "T"%string; base_type := TYPE_typedef; ty_size := 0;
                      base_struct := Some 0%nat |} eq_refl eq_refl)
                0%nat {| type_name := "S"%string; base_type := TYPE_struct; ty_size := 8;
                         base_struct := None |} eq_refl eq_refl _).
  discriminate.
Defined.





(** ** The diagnostic of [error] *)

Lemma array_get_app_r {A} (pre l : list A) i x :
  l !! i = Some x ->
  array_get (pre ++ l) (Z.of_nat (length pre + i)) = Ret x.
Proof.
  intros Hx. unfold array_get.
  destruct (Z.ltb_spec (Z.of_nat (length pre + i)) 0) as [? | _]; [lia |].
  rewrite Nat2Z.id, lookup_app_r by lia.
  replace (length pre + i - length pre)%nat with i by lia.
  rewrite Hx. reflexivity.
Qed.

Lemma array_get_app_r0 {A} (pre l : list A) x :
  array_get (pre ++ x :: l) (Z.of_nat (length pre)) = Ret x.
Proof.
  rewrite <- (Nat.add_0_r (length pre)). now apply array_get_app_r.
Qed.

Lemma scan_back_0 l c :
  Ascii.eqb c newline = false -> scan_back (c :: l) 0 = Ret (-1).
Proof. intros Hc. simpl. rewrite Hc. reflexivity. Qed.

(** The backward scan from a column of a line stops in front of the line. *)
Lemma scan_back_line pre line rest col :
  (pre = [] \/ last pre = Some newline) ->
  newline ∉ line -> (col < length line)%nat ->
  scan_back (pre ++ line ++ rest) (length pre + col)
  = Ret (Z.of_nat (length pre) - 1).
Proof.
  intros Hpre Hline. induction col as [| col IH]; intros Hcol.
  - destruct line as [| c line]; [simpl in Hcol; lia |].
    assert (Hc : Ascii.eqb c newline = false).
    { apply Ascii.eqb_neq. intros ->. apply Hline. left. }
    rewrite Nat.add_0_r.
    destruct Hpre as [-> | Hlast]; [apply scan_back_0, Hc |].
    destruct pre as [| p pre _] using rev_ind; [discriminate |].
    rewrite last_snoc in Hlast. injection Hlast as ->.
    rewrite length_app. simpl length.
    replace (length pre + 1)%nat with (S (length pre)) by lia.
    cbn [scan_back].
    replace (Z.of_nat (S (length pre)))
      with (Z.of_nat (length (pre ++ [newline])))
      by (rewrite length_app; simpl; lia).
    change ((c :: line) ++ rest) with (c :: (line ++ rest)).
    rewrite array_get_app_r0, bind_Ret, Hc.
    rewrite <- app_assoc. simpl app.
    destruct pre as [| q pre'].
    + reflexivity.
    + change (length (q :: pre')) with (S (length pre')).
      cbn [scan_back].
      replace (Z.of_nat (S (length pre'))) with (Z.of_nat (length (q :: pre')))
        by reflexivity.
      rewrite array_get_app_r0, bind_Ret.
      rewrite Ascii.eqb_refl. f_equal. rewrite length_app. simpl. lia.
  - specialize (IH ltac:(lia)).
    replace (length pre + S col)%nat with (S (length pre + col)) by lia.
    cbn [scan_back].
    destruct (lookup_lt_is_Some_2 line (S col) Hcol) as [c Hc].
    replace (Z.of_nat (S (length pre + col)))
      with (Z.of_nat (length pre + S col)) by lia.
    rewrite (array_get_app_r pre (line ++ rest) (S col) c)
      by (apply lookup_app_l_Some, Hc).
    rewrite bind_Ret.
    assert (Ascii.eqb c newline = false) as ->.
    { apply Ascii.eqb_neq. intros ->. apply Hline. eapply list_elem_of_lookup_2, Hc. }
    exact IH.
Qed.

(** The forward scan copies the line up to its newline. *)
Lemma copy_line_line line : forall fuel pre rest diag,
  newline ∉ line -> (length line < fuel)%nat ->
  Z.of_nat (length diag + length line) <= 512 ->
  copy_line fuel (pre ++ line ++ newline :: rest) (Z.of_nat (length pre)) diag
  = Ret (diag ++ line).
Proof.
  induction line as [| c line IH]; intros fuel pre rest diag Hline Hfuel Hroom.
  - destruct fuel as [| fuel]; [simpl in Hfuel; lia |].
    cbn [copy_line app]. rewrite array_get_app_r0, bind_Ret, Ascii.eqb_refl.
    now rewrite app_nil_r.
  - destruct fuel as [| fuel]; [simpl in Hfuel; lia |].
    cbn [copy_line].
    change ((c :: line) ++ newline :: rest) with (c :: (line ++ newline :: rest)).
    rewrite array_get_app_r0, bind_Ret.
    assert (Ascii.eqb c newline = false) as ->.
    { apply Ascii.eqb_neq. intros ->. apply Hline. left. }
    unfold put_char. simpl length in Hroom.
    destruct (Z.ltb_spec (Z.of_nat (length diag)) 512) as [_ | ?]; [| lia].
    rewrite bind_Ret.
    replace (Z.of_nat (length pre) + 1) with (Z.of_nat (length (pre ++ [c])))
      by (rewrite length_app; simpl; lia).
    replace (pre ++ c :: line ++ newline :: rest)
      with ((pre ++ [c]) ++ line ++ newline :: rest) by (now rewrite <- app_assoc).
    rewrite IH.
    + now rewrite <- app_assoc.
    + intros Hin. apply Hline. right. exact Hin.
    + simpl in Hfuel. lia.
    + rewrite length_app. simpl. lia.
Qed.

Lemma put_spaces_Ret n diag :
  Z.of_nat (length diag + n) <= 512 ->
  put_spaces n diag = Ret (diag ++ replicate n " "%char).
Proof.
  revert diag. induction n as [| n IH]; intros diag Hroom.
  - simpl. now rewrite app_nil_r.
  - simpl. unfold put_char.
    destruct (Z.ltb_spec (Z.of_nat (length diag)) 512) as [_ | ?]; [| lia].
    rewrite bind_Ret, IH by (rewrite length_app; simpl; lia).
    now rewrite <- app_assoc.
Qed.

Example error_diagnostic_two_lines :
  error_diagnostic two_lines 9
  = Ret (String.append "a b c" (String newline "  ^ Error occurs here")).
Proof. reflexivity. Qed.

(** X29. The diagnostic of [error] for a position inside a line of the
    source: the line, a newline, one space for each character of the line
    in front of the position, and the caret with its text.  The line is
    the text between the newline in front of the position (or the start
    of the source) and the next newline; it has to fit with the spaces
    and the text into the 512 characters of the buffer. *)
Theorem error_diagnostic_line (pre line rest : list ascii) (col : nat) :
  (pre = [] \/ last pre = Some newline) ->
  newline ∉ line -> (col < length line)%nat ->
  Z.of_nat (length line + col) + 21 <= 512 ->
  Z.of_nat (length pre + length line) < Int.INT_MAX ->
  error_diagnostic (pre ++ line ++ newline :: rest) (Z.of_nat (length pre + col))
  = Ret (cstr (string_of_list_ascii
                 (line ++ [newline] ++ replicate col " "%char)
               ++ "^ Error occurs here")).
Proof.
  intros Hpre Hline Hcol Hroom Hint. unfold error_diagnostic.
  destruct (Z.ltb_spec (Z.of_nat (length pre + col)) 0) as [? | _]; [lia |].
  rewrite Nat2Z.id, (scan_back_line pre line (newline :: rest) col Hpre Hline Hcol).
  rewrite bind_Ret.
  replace (Z.of_nat (length pre) - 1 + 1) with (Z.of_nat (length pre)) by lia.
  rewrite wrap_small by int_range.
  rewrite copy_line_line;
    [| exact Hline | rewrite !length_app; simpl; lia | simpl; lia].
  rewrite bind_Ret. unfold put_char. simpl app at 1. simpl length at 1.
  destruct (Z.ltb_spec (Z.of_nat (length line)) 512) as [_ | ?]; [| lia].
  rewrite bind_Ret.
  replace (Z.to_nat (Z.of_nat (length pre + col) - Z.of_nat (length pre))) with col by lia.
  rewrite put_spaces_Ret by (rewrite length_app; simpl; lia).
  rewrite bind_Ret.
  rewrite <- !app_assoc, app_nil_l.
  destruct (Z.leb_spec
              (Z.of_nat (length (line ++ [newline] ++ replicate col " "%char)) + 20)
              512) as [_ | Hbig]; [reflexivity |].
  rewrite !length_app, length_replicate in Hbig. simpl in Hbig. lia.
Qed.

Lemma error_diagnostic_line_witness :
  error_diagnostic two_lines 9
  = Ret (cstr (string_of_list_ascii
                 (list_ascii_of_string "a b c" ++ [newline] ++ replicate 2 " "%char)
               ++ "^ Error occurs here")).
Proof.
  apply (error_diagnostic_line (list_ascii_of_string "int x;" ++ [newline])
           (list_ascii_of_string "a b c") (replicate 3 Ascii.zero) 2).
  - right. reflexivity.
  - intros Hin. simpl in Hin.
    repeat (apply elem_of_cons in Hin; destruct Hin as [Hin | Hin]; [discriminate |]).
    apply elem_of_nil in Hin. destruct Hin.
  - simpl. lia.
  - simpl. lia.
  - simpl. int_range.
Defined.
